(** * go-spring-web: the request-dispatch core

    A shallow embedding of [spring-web/spring-web-container.go] (package
    SpringWeb), of the gin adapter's [Context] (package SpringGin) and of the
    filters and services of package testcases, followed by the properties of
    the dispatch core.

    Go code that runs against a request (filters, handlers, deferred
    closures) is embedded as a term of the free monad [Code]: the effects on
    the request context, [panic], [defer], [recover()] and [chain.Next(ctx)]
    are its operations, and [exec] gives them the meaning they have in Go. *)

From Stdlib Require Import String Ascii List ZArith Lia Bool Arith.
From Stdlib Require DecimalString DecimalZ.
Import ListNotations.
Open Scope string_scope.
Open Scope list_scope.

Set Implicit Arguments.

(* ================================================================= *)
(** * Package SpringWeb *)

Module SpringWeb.

(** ** Values that travel with a panic or a log call *)

(** [reflect.Kind], as far as the container meets it. *)
Inductive Kind : Type := Invalid | Func.

(** The argument of [panic], an [interface{}]: nil, a string, an error, or
    one of the values [reflect] panics with. *)
Inductive PanicValue : Type :=
| PNil                                      (* panic(nil) *)
| PString (s : string)                      (* panic("...") *)
| PError (msg : string)                     (* panic(errors.New(msg)) *)
| PValueError (method : string) (kind : Kind) (* *reflect.ValueError *)
| PCallMismatch.          (* reflect.Value.Call: arguments that do not fit the parameters *)

(** One argument of [ctx.LogInfo(...)] / [ctx.LogError(...)]. *)
Inductive Arg : Type :=
| AString (s : string)
| AInt (n : Z)
| APanic (v : PanicValue)
| ADuration.                 (* a [time.Duration]; its value is not modelled *)

Inductive Level : Type := INFO | ERROR.

Record LogEntry : Type := mkEntry { level : Level; args : list Arg }.

Definition StatusInternalServerError : Z := 500.

(** ** The request-time state *)

(** The primitive effects a filter or a handler has on its surroundings. *)
Inductive Effect : Type :=
| LogInfo (a : list Arg)         (* ctx.LogInfo(a...) *)
| LogError (a : list Arg)        (* ctx.LogError(a...) *)
| Status (code : Z)              (* ctx.Status(code) *)
| PushBack (l : nat) (n : Z).    (* l.PushBack(n), l a *list.List *)

(** What happened during a dispatch, oldest first.  This history is a
    specification device: no Go variable holds it. *)
Inductive Event : Type :=
| Performed (e : Effect)
| Dispatched (i : nat)     (* chain.Next handed control to filters[i] *)
| HandlerInvoked.          (* fn.Invoke(ctx) was entered *)

Record World : Type := mkWorld {
  logs : list LogEntry;      (* entries of the request's logger, oldest first *)
  status : Z;                (* response status code *)
  heap : nat -> list Z;      (* the container/list values, by address *)
  next : nat;                (* DefaultFilterChain.next of the live chain *)
  history : list Event
}.

Definition record (ev : Event) (w : World) : World :=
  mkWorld (logs w) (status w) (heap w) (next w) (history w ++ [ev]).

Definition apply (e : Effect) (w : World) : World :=
  match e with
  | LogInfo a => mkWorld (logs w ++ [mkEntry INFO a]) (status w) (heap w) (next w) (history w)
  | LogError a => mkWorld (logs w ++ [mkEntry ERROR a]) (status w) (heap w) (next w) (history w)
  | Status code => mkWorld (logs w) code (heap w) (next w) (history w)
  | PushBack l n =>
      mkWorld (logs w) (status w)
              (fun p => if Nat.eqb p l then heap w l ++ [n] else heap w p)
              (next w) (history w)
  end.

Definition perform (e : Effect) (w : World) : World :=
  record (Performed e) (apply e w).

Definition performAll (es : list Effect) (w : World) : World :=
  fold_left (fun acc e => perform e acc) es w.

(** [chain.next++], on the way to [filters[i].Invoke]. *)
Definition advance (w : World) : World :=
  record (Dispatched (next w))
         (mkWorld (logs w) (status w) (heap w) (S (next w)) (history w)).

(** ** Code *)

(** The body of a Go function that runs against a request.  [chain] is the
    type of the filter chains the body holds: [unit] for a filter, which is
    handed the chain of its dispatch, [Empty_set] for a handler, which is
    handed none. *)
Inductive Code (chain : Type) : Type :=
| Return                                     (* fall off the end / return *)
| Panic (v : PanicValue)                     (* panic(v) *)
| Do (e : Effect) (k : Code chain)           (* e; k *)
| CallNext (c : chain) (k : Code chain)      (* c.Next(ctx); k *)
| Defer (d : Code chain) (k : Code chain)    (* defer func() { d }(); k *)
| DeferRecover (h : option PanicValue -> Code chain) (k : Code chain).
                               (* defer func() { err := recover(); h err }(); k *)

Arguments Return {chain}.
Arguments Panic {chain} v.

(** How a call ends: [None] is a normal return, [Some v] a panic with [v]
    that is still unwinding. *)
Definition Completion : Type := option PanicValue.

(** [recover()], called by a deferred function when the function that
    deferred it ends with [r]: the value of the panic, nil ([None]) when
    there is no panic.  The module declares go 1.12, where a [panic(nil)]
    makes [recover()] return nil as well.  The call stops the panic in every
    case. *)
Definition recover (r : Completion) : option PanicValue :=
  match r with
  | Some PNil => None
  | Some v => Some v
  | None => None
  end.

Section Exec.

Variable chain : Type.

(** What [c.Next(ctx)] does; [None] when the fuel of the caller is spent. *)
Variable callNext : chain -> World -> option (World * Completion).

Fixpoint exec (c : Code chain) (w : World) : option (World * Completion) :=
  match c with
  | Return => Some (w, None)
  | Panic v => Some (w, Some v)
  | Do e k => exec k (perform e w)
  | CallNext ch k =>
      match callNext ch w with
      | None => None
      | Some (w1, None) => exec k w1
      | Some (w1, Some v) => Some (w1, Some v)
      end
  | Defer d k =>
      match exec k w with
      | None => None
      | Some (w1, r1) =>
          match exec d w1 with
          | None => None
          | Some (w2, None) => Some (w2, r1)
          | Some (w2, Some v) => Some (w2, Some v)
          end
      end
  | DeferRecover h k =>
      match exec k w with
      | None => None
      | Some (w1, r1) => exec (h (recover r1)) w1
      end
  end.

End Exec.

(** [es; k] for a run of effects. *)
Fixpoint emit {chain : Type} (es : list Effect) (k : Code chain) : Code chain :=
  match es with
  | [] => k
  | e :: es' => Do e (emit es' k)
  end.

(** ** Handlers *)

(** [type HandlerFunc func(WebContext)] *)
Definition HandlerFunc : Type := Code Empty_set.

(** A method of a receiver, as [reflect.Value.Call] with the context as
    only argument sees it: a method whose parameters are the context alone,
    [func (r *T) M(ctx WebContext)] with results or without (the caller
    drops them), given by its body; or a method with other parameters, which
    the arguments do not fit. *)
Inductive Method : Type :=
| MHandlerFunc (f : HandlerFunc)
| MOther.

(** A receiver object: its exported method set. *)
Record Object : Type := mkObject { methods : list (string * Method) }.

(** [reflect.Value], as far as [METHOD] and [methodHandler] hold one: what
    [MethodByName] returns. *)
Inductive Value : Type :=
| ZeroValue                  (* the zero Value: IsValid() is false *)
| MethodValue (m : Method).  (* a bound method, of kind Func *)

Inductive Result (A : Type) : Type :=
| Ok (a : A)
| Panics (v : PanicValue).

Arguments Ok {A} a.
Arguments Panics {A} v.

Fixpoint lookupMethod (ms : list (string * Method)) (name : string) : option Method :=
  match ms with
  | [] => None
  | (n, m) :: ms' => if String.eqb n name then Some m else lookupMethod ms' name
  end.

(** [reflect.ValueOf(receiver).MethodByName(name)].  [ValueOf] of a nil
    interface is the zero Value, on which [MethodByName] panics; on a
    receiver, "It returns the zero Value if no method was found". *)
Definition MethodByName (receiver : option Object) (name : string) : Result Value :=
  match receiver with
  | None => Panics (PValueError "reflect.Value.MethodByName" Invalid)
  | Some o =>
      match lookupMethod (methods o) name with
      | Some m => Ok (MethodValue m)
      | None => Ok ZeroValue
      end
  end.

(** [v.IsZero()]: "IsZero reports whether v is the zero value for its type.
    It panics if the argument is invalid."  A bound method is a non-nil func,
    which is not the zero value of its type. *)
Definition IsZero (v : Value) : Result bool :=
  match v with
  | ZeroValue => Panics (PValueError "reflect.Value.IsZero" Invalid)
  | MethodValue _ => Ok false
  end.

(** [v.Call([]reflect.Value{reflect.ValueOf(ctx)})]: it runs a method whose
    parameters are the context alone, and panics when the arguments do not
    fit the parameters or the Value is the zero Value. *)
Definition Call (v : Value) : HandlerFunc :=
  match v with
  | MethodValue (MHandlerFunc f) => f
  | MethodValue MOther => Panic PCallMismatch
  | ZeroValue => Panic (PValueError "reflect.Value.Call" Invalid)
  end.

(** The implementations of [interface Handler]. *)
Inductive Handler : Type :=
| fnHandler (f : HandlerFunc)
| methodHandler (receiver : option Object) (method : Value) (methodName : string)
| httpHandler (h : HandlerFunc).
                   (* an http.HandlerFunc, run on ctx.ResponseWriter(), ctx.Request() *)

(** [FUNC] *)
Definition FUNC (fn : HandlerFunc) : Handler := fnHandler fn.

(** [HTTP] *)
Definition HTTP (fn : HandlerFunc) : Handler := httpHandler fn.

(** [METHOD] *)
Definition METHOD (receiver : option Object) (methodName : string) : Result Handler :=
  match MethodByName receiver methodName with
  | Panics v => Panics v
  | Ok method =>
      match IsZero method with
      | Panics v => Panics v
      | Ok true => Panics (PError ("can't find method " ++ methodName)%string)
      | Ok false => Ok (methodHandler receiver method methodName)
      end
  end.

(** The body of [Invoke] of each implementation. *)
Definition Handler_body (fn : Handler) : HandlerFunc :=
  match fn with
  | fnHandler f => f
  | methodHandler _ method _ => Call method
  | httpHandler h => h
  end.

Definition noChain (c : Empty_set) (w : World) : option (World * Completion) :=
  match c with end.

(** [fn.Invoke(ctx)] *)
Definition Handler_Invoke (fn : Handler) (w : World) : option (World * Completion) :=
  exec noChain (Handler_body fn) (record HandlerInvoked w).

(** ** Filters *)

(** The values of [interface Filter].  The package has one [*recoveryFilter]
    and one [*loggerFilter], the package-level variables
    [defaultRecoveryFilter] and [defaultLoggerFilter]; every filter written
    outside the package is a [UserFilter] with the body of its [Invoke]. *)
Inductive Filter : Type :=
| handlerFilter (fn : Handler)
| defaultRecoveryFilter
| defaultLoggerFilter
| UserFilter (Invoke : Code unit).

(** Modelled from the spec: [HandlerFilter], of the file of the filter chain,
    which is not among the sources: the terminal link "invokes h". *)
Definition HandlerFilter (fn : Handler) : Filter := handlerFilter fn.

(** [recoveryFilter.Invoke] *)
Definition recoveryFilter_Invoke : Code unit :=
  DeferRecover
    (fun err =>
       match err with
       | Some e =>
           Do (LogError [AString "[PANIC RECOVER] "; APanic e])
              (Do (Status StatusInternalServerError) Return)
       | None => Return
       end)
    (CallNext tt Return).

(** [loggerFilter.Invoke] *)
Definition loggerFilter_Invoke : Code unit :=
  CallNext tt (Do (LogInfo [AString "cost: "; ADuration]) Return).

Section Chain.

(** [chain.filters], fixed for the life of the chain. *)
Variable filters : list Filter.

(** [f.Invoke(ctx, chain)] *)
Definition Filter_Invoke (callNext : unit -> World -> option (World * Completion))
    (f : Filter) (w : World) : option (World * Completion) :=
  match f with
  | handlerFilter fn => Handler_Invoke fn w
  | defaultRecoveryFilter => exec callNext recoveryFilter_Invoke w
  | defaultLoggerFilter => exec callNext loggerFilter_Invoke w
  | UserFilter body => exec callNext body w
  end.

(** Modelled from the spec: [DefaultFilterChain.Next], of the file of the
    filter chain, which is not among the sources: "maintain a cursor index
    starting at 0; next dispatches to F[cursor] and increments cursor before
    invoking it", and a call past exhaustion is a no-op.  [fuel] bounds the
    depth of nested dispatches. *)
Fixpoint Next (fuel : nat) (w : World) : option (World * Completion) :=
  match fuel with
  | O => None
  | S fuel' =>
      match nth_error filters (next w) with
      | None => Some (w, None)
      | Some f =>
          Filter_Invoke (fun _ => Next fuel') f (advance w)
      end
  end.

End Chain.

(** Modelled from the spec: [NewDefaultFilterChain], of the same file: a
    fresh cursor, at 0, over the given filters. *)
Definition NewDefaultFilterChain (w : World) : World :=
  mkWorld (logs w) (status w) (heap w) 0 (history w).

(** [InvokeHandler] *)
Definition InvokeHandler (w : World) (fn : Handler) (filters : list Filter)
  : option (World * Completion) :=
  if Nat.ltb 0 (length filters) then
    let filters := filters ++ [HandlerFilter fn] in
    Next filters (S (length filters)) (NewDefaultFilterChain w)
  else
    Handler_Invoke fn w.

(** ** The container *)

(** [ContainerConfig]; a [time.Duration] is an int64 count of nanoseconds. *)
Record ContainerConfig : Type := mkConfig {
  IP : string;
  Port : Z;
  EnableSSL : bool;
  KeyFile : string;
  CertFile : string;
  ReadTimeout : Z;
  WriteTimeout : Z
}.

Section Container.

(** The route table.  [Mapper], [interface WebMapping], its default
    implementation and [Router] are declared in files that are not among the
    sources; the container is embedded over any implementation of them. *)
Variable Mapper : Type.
Variable WebMapping : Type.
Variable NewDefaultWebMapping : WebMapping.
Variable WebMapping_AddMapper : WebMapping -> Mapper -> WebMapping.
Variable WebMapping_Mappers : WebMapping -> list Mapper.

(** Of [Router] the container reads the field [mapping] only. *)
Record Router : Type := mkRouter { mapping : WebMapping }.

(** [BaseWebContainer]; a field of interface type is [None] when nil. *)
Record BaseWebContainer : Type := mkContainer {
  webMapping : WebMapping;          (* the embedded WebMapping *)
  config : ContainerConfig;
  filters : list Filter;
  enableSwg : bool;
  loggerFilter : option Filter;
  recoveryFilter : option Filter
}.

(** [NewBaseWebContainer] *)
Definition NewBaseWebContainer (config : ContainerConfig) : BaseWebContainer :=
  {| webMapping := NewDefaultWebMapping;
     config := config;
     filters := [];
     enableSwg := true;
     loggerFilter := Some defaultLoggerFilter;
     recoveryFilter := Some defaultRecoveryFilter |}.

(** [Config] *)
Definition Config (c : BaseWebContainer) : ContainerConfig := config c.

(** [GetFilters] *)
Definition GetFilters (c : BaseWebContainer) : list Filter := filters c.

(** [ResetFilters] *)
Definition ResetFilters (c : BaseWebContainer) (fs : list Filter) : BaseWebContainer :=
  mkContainer (webMapping c) (config c) fs (enableSwg c) (loggerFilter c) (recoveryFilter c).

(** [AddFilter] *)
Definition AddFilter (c : BaseWebContainer) (filter : list Filter) : BaseWebContainer :=
  mkContainer (webMapping c) (config c) (filters c ++ filter) (enableSwg c)
              (loggerFilter c) (recoveryFilter c).

(** [GetLoggerFilter] *)
Definition GetLoggerFilter (c : BaseWebContainer) : option Filter := loggerFilter c.

(** [SetLoggerFilter] *)
Definition SetLoggerFilter (c : BaseWebContainer) (filter : option Filter) : BaseWebContainer :=
  mkContainer (webMapping c) (config c) (filters c) (enableSwg c) filter (recoveryFilter c).

(** [GetRecoveryFilter] *)
Definition GetRecoveryFilter (c : BaseWebContainer) : option Filter := recoveryFilter c.

(** [SetRecoveryFilter] *)
Definition SetRecoveryFilter (c : BaseWebContainer) (filter : option Filter) : BaseWebContainer :=
  mkContainer (webMapping c) (config c) (filters c) (enableSwg c) (loggerFilter c) filter.

(** [c.AddMapper(mapper)], promoted from the embedded [WebMapping]. *)
Definition AddMapper (c : BaseWebContainer) (mapper : Mapper) : BaseWebContainer :=
  mkContainer (WebMapping_AddMapper (webMapping c) mapper) (config c) (filters c)
              (enableSwg c) (loggerFilter c) (recoveryFilter c).

(** [AddRouter] *)
Definition AddRouter (c : BaseWebContainer) (router : Router) : BaseWebContainer :=
  fold_left AddMapper (WebMapping_Mappers (mapping router)) c.

(** [EnableSwagger] *)
Definition EnableSwagger (c : BaseWebContainer) : bool := enableSwg c.

(** [SetEnableSwagger] *)
Definition SetEnableSwagger (c : BaseWebContainer) (enable : bool) : BaseWebContainer :=
  mkContainer (webMapping c) (config c) (filters c) enable (loggerFilter c) (recoveryFilter c).

(** One call on a container, and a run of such calls, in program order. *)
Inductive Op : Type :=
| OpAddFilter (filter : list Filter)
| OpResetFilters (fs : list Filter)
| OpSetLoggerFilter (filter : option Filter)
| OpSetRecoveryFilter (filter : option Filter)
| OpSetEnableSwagger (enable : bool)
| OpAddRouter (router : Router)
| OpAddMapper (mapper : Mapper).

Definition step (c : BaseWebContainer) (o : Op) : BaseWebContainer :=
  match o with
  | OpAddFilter filter => AddFilter c filter
  | OpResetFilters fs => ResetFilters c fs
  | OpSetLoggerFilter filter => SetLoggerFilter c filter
  | OpSetRecoveryFilter filter => SetRecoveryFilter c filter
  | OpSetEnableSwagger enable => SetEnableSwagger c enable
  | OpAddRouter router => AddRouter c router
  | OpAddMapper mapper => AddMapper c mapper
  end.

Definition run (c : BaseWebContainer) (ops : list Op) : BaseWebContainer :=
  fold_left step ops c.

(** The calls that replace one of the two default filters. *)
Definition setsDefaultFilter (o : Op) : bool :=
  match o with
  | OpSetLoggerFilter _ => true
  | OpSetRecoveryFilter _ => true
  | _ => false
  end.

End Container.

Arguments OpAddFilter {Mapper WebMapping} filter.
Arguments OpResetFilters {Mapper WebMapping} fs.
Arguments OpSetLoggerFilter {Mapper WebMapping} filter.
Arguments OpSetRecoveryFilter {Mapper WebMapping} filter.
Arguments OpSetEnableSwagger {Mapper WebMapping} enable.
Arguments OpAddRouter {Mapper WebMapping} router.
Arguments OpAddMapper {Mapper WebMapping} mapper.

End SpringWeb.

(* ================================================================= *)
(** * Package SpringGin: the path parameters of [Context] *)

Module SpringGin.

(** [gin.Param] and [gin.Params] *)
Record Param : Type := mkParam { Key : string; Value : string }.

Definition Params : Type := list Param.

(** [gin.Params.ByName]: "the value of the first Param which key matches the
    given name.  If no matching Param is found, an empty string is
    returned." *)
Fixpoint ByName (ps : Params) (name : string) : string :=
  match ps with
  | [] => ""
  | entry :: ps' => if String.eqb (Key entry) name then Value entry else ByName ps' name
  end.

(** [Context], with the fields the path parameters use; a nil slice is
    [None]. *)
Record Context : Type := mkContext {
  ginParams : Params;                     (* ginContext.Params *)
  handlerPath : string;
  pathParamNames : option (list string);
  pathParamValues : option (list string);
  wildCardName : string
}.

(** [NewContext] *)
Definition NewContext (path : string) (wildCardName : string) (ginParams : Params) : Context :=
  {| ginParams := ginParams;
     handlerPath := path;
     pathParamNames := None;
     pathParamValues := None;
     wildCardName := wildCardName |}.

(** [v[n:]] on a Go string, a sequence of bytes. *)
Fixpoint sliceFrom (n : nat) (v : string) : string :=
  match n, v with
  | O, _ => v
  | S n', String _ v' => sliceFrom n' v'
  | S _, EmptyString => EmptyString
  end.

(** [ctx.ginContext.Param] *)
Definition Param_ (ctx : Context) (key : string) : string := ByName (ginParams ctx) key.

(** [PathParam] *)
Definition PathParam (ctx : Context) (name : string) : string :=
  let name := if String.eqb name "*" then wildCardName ctx else name in
  let v := Param_ ctx name in
  if Nat.ltb 0 (String.length v) then sliceFrom 1 v else "".

(** [PathParamNames]: the names, and the context with its cache filled. *)
Definition PathParamNames (ctx : Context) : list string * Context :=
  match pathParamNames ctx with
  | None =>
      let names :=
        fold_left
          (fun acc entry =>
             let name := Key entry in
             let name := if String.eqb name (wildCardName ctx) then "*" else name in
             acc ++ [name])
          (ginParams ctx) [] in
      (names,
       mkContext (ginParams ctx) (handlerPath ctx) (Some names) (pathParamValues ctx)
                 (wildCardName ctx))
  | Some names => (names, ctx)
  end.

(** [PathParamValues]: the values, and the context with its cache filled. *)
Definition PathParamValues (ctx : Context) : list string * Context :=
  match pathParamValues ctx with
  | None =>
      let values :=
        fold_left
          (fun acc entry =>
             let v := Value entry in
             let v := if Nat.ltb 0 (String.length v) then sliceFrom 1 v else v in
             acc ++ [v])
          (ginParams ctx) [] in
      (values,
       mkContext (ginParams ctx) (handlerPath ctx) (pathParamNames ctx) (Some values)
                 (wildCardName ctx))
  | Some values => (values, ctx)
  end.

End SpringGin.

(* ================================================================= *)
(** * Package testcases *)

Module testcases.

Import SpringWeb.

(** [InterruptFilter.Invoke] *)
Definition InterruptFilter_Invoke : Code unit :=
  Do (LogInfo [AString "interrupt"]) Return.

Definition InterruptFilter : Filter := UserFilter InterruptFilter_Invoke.

(** [NumberFilter.Invoke], for the filter with fields [l] and [n]. *)
Definition NumberFilter_Invoke (n : Z) (l : nat) : Code unit :=
  Defer
    (Do (LogInfo [AString "after "; AInt n]) (Do (PushBack l n) Return))
    (Do (LogInfo [AString "before "; AInt n])
        (Do (PushBack l n)
            (CallNext tt Return))).

(** [NewNumberFilter] *)
Definition NewNumberFilter (n : Z) (l : nat) : Filter := UserFilter (NumberFilter_Invoke n l).

(** [StringFilter.Invoke], for the filter with field [s]. *)
Definition StringFilter_Invoke (s : string) : Code unit :=
  Defer
    (Do (LogInfo [AString "after "; AString s]) Return)
    (Do (LogInfo [AString "before "; AString s])
        (CallNext tt Return)).

(** [NewStringFilter] *)
Definition NewStringFilter (s : string) : Filter := UserFilter (StringFilter_Invoke s).

(** [Service.Panic] *)
Definition Service_Panic : HandlerFunc := Panic (PString "this is a panic").

(** [Service], by its exported method [Panic]; its methods [Get] and [Set]
    read the query and the form of the request, which [Code] leaves out. *)
Definition Service : Object := mkObject [("Panic", MHandlerFunc Service_Panic)].

(** [EchoRequest]; its field carries the tag
    [query:"str" validate:"required,len=4"]. *)
Record EchoRequest : Type := mkEchoRequest { Str : string }.

(** [EchoResponse] *)
Record EchoResponse : Type := mkEchoResponse { Echo : string }.

(** [RpcService.Echo] *)
Definition RpcService_Echo (request : EchoRequest) : EchoResponse :=
  mkEchoResponse ("echo " ++ Str request)%string.

End testcases.

(* ================================================================= *)
(** * The binding layer of RPC-style handlers *)

Module Binding.

Import testcases.

(** Modelled from the spec: a validation tag, "e.g. required, length
    constraints"; the binding layer lives in files that are not among the
    sources. *)
Inductive Rule : Type :=
| required
| len (n : nat).

(** Modelled from the spec: a per-field binding tag, "source name" and
    validation rules; the source of [EchoRequest.Str] is the query. *)
Record FieldTag : Type := mkTag { query : string; validate : list Rule }.

(** The tag of [EchoRequest.Str]: [query:"str" validate:"required,len=4"]. *)
Definition EchoRequest_Str_tag : FieldTag := mkTag "str" [required; len 4].

(** Modelled from the spec: the query string [k1=v1&k2=v2] as the engine
    hands it to the binder, without unescaping. *)
Fixpoint splitOn (sep : ascii) (s : string) : list string :=
  match s with
  | EmptyString => [EmptyString]
  | String c s' =>
      if Ascii.eqb c sep then EmptyString :: splitOn sep s'
      else
        match splitOn sep s' with
        | [] => [String c EmptyString]
        | x :: xs => String c x :: xs
        end
  end.

Fixpoint cut (sep : ascii) (s : string) : string * string :=
  match s with
  | EmptyString => (EmptyString, EmptyString)
  | String c s' =>
      if Ascii.eqb c sep then (EmptyString, s')
      else let (k, v) := cut sep s' in (String c k, v)
  end.

Definition parseQuery (rawQuery : string) : list (string * string) :=
  map (cut "="%char) (filter (fun p => negb (String.eqb p "")) (splitOn "&"%char rawQuery)).

Fixpoint queryParam (q : list (string * string)) (name : string) : string :=
  match q with
  | [] => ""
  | (k, v) :: q' => if String.eqb k name then v else queryParam q' name
  end.

(** Modelled from the spec: what a validation rule demands of a field. *)
Definition holds (r : Rule) (v : string) : bool :=
  match r with
  | required => negb (String.eqb v "")
  | len n => Nat.eqb (String.length v) n
  end.

(** Modelled from the spec: steps 1 and 2 of the binding contract, "construct
    a zero-value instance" and "populate its fields from incoming query
    parameters ... using per-field binding tags ... and optional validation
    tags"; [None] is a validation failure. *)
Definition bindEchoRequest (rawQuery : string) : option EchoRequest :=
  let zero := mkEchoRequest "" in
  let v := queryParam (parseQuery rawQuery) (query EchoRequest_Str_tag) in
  let bound := if String.eqb v "" then zero else mkEchoRequest v in
  if forallb (fun r => holds r (Str bound)) (validate EchoRequest_Str_tag)
  then Some bound
  else None.

(** What the client receives. *)
Inductive Body : Type :=
| JSON (r : EchoResponse)
| ValidationError.

Record Reply : Type := mkReply {
  code : Z;
  body : Body;
  invocations : list EchoRequest   (* the arguments the bound function was called with *)
}.

Definition StatusOK : Z := 200.

Section Dispatch.

(** The status of a binding failure; the spec fixes its class only. *)
Variable bindFailureStatus : Z.

(** Modelled from the spec: steps 3 and 4 of the binding contract:
    "Validation failure surfaces as a request-level error (4xx-class), not a
    crash", else "invoke the underlying function with the bound request ...
    and serialize it ... (JSON, by default)". *)
Definition bindHandler_Invoke (fn : EchoRequest -> EchoResponse) (rawQuery : string) : Reply :=
  match bindEchoRequest rawQuery with
  | None => mkReply bindFailureStatus ValidationError []
  | Some request => mkReply StatusOK (JSON (fn request)) [request]
  end.

End Dispatch.

End Binding.

(* ================================================================= *)
(** * The vocabulary of the properties *)

Module Vocabulary.

Import SpringWeb.

(** The filters a history shows as dispatched, in the order they were. *)
Definition dispatches (T : list Event) : list nat :=
  flat_map (fun ev => match ev with Dispatched i => [i] | _ => [] end) T.

(** The call-then-defer idiom of [NumberFilter] and [StringFilter]:
    [defer func() { post }(); pre; chain.Next(ctx)]. *)
Definition callThenDefer (pre post : list Effect) : Code unit :=
  Defer (emit post Return) (emit pre (CallNext tt Return)).

(** The pre-segment and the post-segment of a filter of the idiom. *)
Definition Segments : Type := (list Effect * list Effect)%type.

Definition idiomFilter (s : Segments) : Filter :=
  UserFilter (callThenDefer (fst s) (snd s)).

(** The way down a chain of such filters: each is dispatched and runs its
    pre-segment. *)
Definition descend (specs : list Segments) (w : World) : World :=
  fold_left (fun acc s => performAll (fst s) (advance acc)) specs w.

(** The way back up: the post-segments, the last filter's first. *)
Definition ascend (specs : list Segments) (w : World) : World :=
  fold_right (fun s acc => performAll (snd s) acc) w specs.

Fixpoint preTrace (i : nat) (specs : list Segments) : list Event :=
  match specs with
  | [] => []
  | s :: rest => Dispatched i :: map Performed (fst s) ++ preTrace (S i) rest
  end.

Fixpoint postTrace (specs : list Segments) : list Event :=
  match specs with
  | [] => []
  | s :: rest => postTrace rest ++ map Performed (snd s)
  end.

(** The dispatch of the terminal link: [InvokeHandler] builds no chain for an
    empty filter list. *)
Definition terminalLink (specs : list Segments) : list Event :=
  match specs with
  | [] => []
  | _ :: _ => [Dispatched (length specs)]
  end.

(** Between two moments of a dispatch over a chain of [L] links, the filters
    handed control are those the cursor passed, each once and in order. *)
Definition inOrder (L : nat) (w w' : World) : Prop :=
  next w <= next w' /\
  (next w <= L -> next w' <= L) /\
  dispatches (history w') = dispatches (history w) ++ seq (next w) (next w' - next w).

(** Code that never calls [chain.Next]. *)
Fixpoint nextFree (c : Code unit) : Prop :=
  match c with
  | Return => True
  | Panic _ => True
  | Do _ k => nextFree k
  | CallNext _ _ => False
  | Defer d k => nextFree d /\ nextFree k
  | DeferRecover h k => (forall err, nextFree (h err)) /\ nextFree k
  end.

(** Code that calls [chain.Next] at most once, its deferred calls counted. *)
Fixpoint nextOnce (c : Code unit) : Prop :=
  match c with
  | Return => True
  | Panic _ => True
  | Do _ k => nextOnce k
  | CallNext _ k => nextFree k
  | Defer d k => (nextFree d /\ nextOnce k) \/ (nextOnce d /\ nextFree k)
  | DeferRecover h k =>
      ((forall err, nextFree (h err)) /\ nextOnce k) \/
      ((forall err, nextOnce (h err)) /\ nextFree k)
  end.

Definition callsNextAtMostOnce (f : Filter) : Prop :=
  match f with
  | handlerFilter _ => True
  | defaultRecoveryFilter => nextOnce recoveryFilter_Invoke
  | defaultLoggerFilter => nextOnce loggerFilter_Invoke
  | UserFilter body => nextOnce body
  end.

(** Code that calls [chain.Next] exactly once, however it ends. *)
Fixpoint reachesNextOnce (c : Code unit) : Prop :=
  match c with
  | Return => False
  | Panic _ => False
  | Do _ k => reachesNextOnce k
  | CallNext _ k => nextFree k
  | Defer d k => (nextFree d /\ reachesNextOnce k) \/ (reachesNextOnce d /\ nextFree k)
  | DeferRecover h k =>
      ((forall err, nextFree (h err)) /\ reachesNextOnce k) \/
      ((forall err, reachesNextOnce (h err)) /\ nextFree k)
  end.

Definition callsNextExactlyOnce (f : Filter) : Prop :=
  match f with
  | handlerFilter _ => False
  | defaultRecoveryFilter => reachesNextOnce recoveryFilter_Invoke
  | defaultLoggerFilter => reachesNextOnce loggerFilter_Invoke
  | UserFilter body => reachesNextOnce body
  end.

(** How many times a history shows a handler entered. *)
Definition handlerCount (T : list Event) : nat :=
  length (filter (fun ev => match ev with HandlerInvoked => true | _ => false end) T).

(** What a run achieves when it carries a chain whose terminal link has
    index [n] to its end: it returns, the cursor behind the terminal link,
    one more handler entered. *)
Definition reachesHandler (n : nat) (run : World -> option (World * Completion))
    (w : World) : Prop :=
  exists w' r, run w = Some (w', r) /\ next w' = S n /\
               handlerCount (history w') = S (handlerCount (history w)).

(** The interrupt property, of the dispatch of [fs] and [fn] from [w], with
    no condition on the filters before filter [k]: if filter [k] never calls
    its continuation, no link after it is handed control. *)
Definition interruptIsolates (w : World) (fn : Handler) (fs : list Filter) (k : nat) : Prop :=
  forall body w' r T,
    nth_error fs k = Some (UserFilter body) ->
    nextFree body ->
    InvokeHandler w fn fs = Some (w', r) ->
    history w' = history w ++ T ->
    forall j, k < j -> ~ In (Dispatched j) T.

(** The body of filter [k], code that never calls [chain.Next], ran to its
    end between [w] and [w']: the history shows filter [k] handed control,
    in a world [W]; right behind it the effects [es] of the whole body, its
    deferred segments included, as the body performs them when it runs from
    [W]; and behind them no link handed control. *)
Definition ranToItsEnd (w : World) (k : nat) (body : Code unit) (w' : World) : Prop :=
  exists W es rk T1 T2,
    history W = history w ++ T1 ++ [Dispatched k] /\
    exec (fun _ _ => None) body W = Some (performAll es W, rk) /\
    history w' = history W ++ map Performed es ++ T2 /\
    dispatches T2 = [].

(** The other half of the interrupt property, with no condition on the
    filters before filter [k] either: the body of filter [k] runs to its
    end. *)
Definition interrupterRuns (w : World) (fn : Handler) (fs : list Filter) (k : nat) : Prop :=
  forall body w' r,
    nth_error fs k = Some (UserFilter body) ->
    nextFree body ->
    InvokeHandler w fn fs = Some (w', r) ->
    ranToItsEnd w k body w'.

(** A Go string without its first byte; the empty string stays empty. *)
Definition withoutFirstByte (v : string) : string :=
  match v with
  | EmptyString => EmptyString
  | String _ rest => rest
  end.

(** The name under which [PathParamNames] lists a parameter of [key]. *)
Definition canonicalName (wild key : string) : string :=
  if String.eqb key wild then "*" else key.

(** An initial state: nothing logged, status 200, every list empty. *)
Definition idle : World := mkWorld [] 200 (fun _ => []) 0 [].

(** A filter that calls its continuation twice. *)
Definition callsNextTwice : Filter := UserFilter (CallNext tt (CallNext tt Return)).

End Vocabulary.

(* ================================================================= *)
(** * Package SpringWeb: before the start of a container *)

Module SpringWebStartup.

Import SpringWeb.

Section PreStart.

(** The route table, its mappers and the swagger document are declared in
    files that are not among the sources; [PreStart] is embedded over any
    implementation of what it uses of them. *)
Variable Mapper : Type.
Variable WebMapping : Type.
Variable WebMapping_Mappers : WebMapping -> list Mapper.
Variable WebMapping_HandleGet : WebMapping -> string -> Handler -> WebMapping.
Variable WebMapping_GetMapping : WebMapping -> string -> HandlerFunc -> WebMapping.

(** A swagger operation, and the package-level document [doc]. *)
Variable Operation : Type.
Variable Doc : Type.

(** [mapper.swagger] ([None] when nil), [mapper.Path()], [mapper.Method()]. *)
Variable Mapper_swagger : Mapper -> option Operation.
Variable Mapper_Path : Mapper -> string.
Variable Mapper_Method : Mapper -> Z.

(** [op.parseBind()]: the operation as the call leaves it, and the text of
    the error it returns, if any. *)
Variable parseBind : Operation -> Operation * option string.

(** [doc.AddPath(path, method, op)] *)
Variable Doc_AddPath : Doc -> string -> Z -> Operation -> Doc.

(** [httpSwagger.Handler(httpSwagger.URL("/swagger/doc.json"))] and [ReDoc]. *)
Variable swaggerUI : HandlerFunc.
Variable ReDoc : HandlerFunc.

(** The loop of [PreStart] over [c.Mappers()]: the document it leaves, and
    the panic that ended it, if any. *)
Fixpoint registerOperations (ms : list Mapper) (doc : Doc) : Doc * Completion :=
  match ms with
  | [] => (doc, None)
  | mapper :: ms' =>
      match Mapper_swagger mapper with
      | Some op =>
          match parseBind op with
          | (_, Some err) => (doc, Some (PError err))
          | (op', None) =>
              registerOperations ms'
                (Doc_AddPath doc (Mapper_Path mapper) (Mapper_Method mapper) op')
          end
      | None => registerOperations ms' doc
      end
  end.

(** [PreStart]: the container and the document it leaves, and its panic, if
    any. *)
Definition PreStart (c : BaseWebContainer WebMapping) (doc : Doc)
  : BaseWebContainer WebMapping * Doc * Completion :=
  if enableSwg c then
    match registerOperations (WebMapping_Mappers (webMapping c)) doc with
    | (doc', Some v) => (c, doc', Some v)
    | (doc', None) =>
        let m1 := WebMapping_HandleGet (webMapping c) "/swagger/*" (HTTP swaggerUI) in
        let m2 := WebMapping_GetMapping m1 "/redoc" ReDoc in
        (mkContainer m2 (config c) (filters c) (enableSwg c)
                     (loggerFilter c) (recoveryFilter c),
         doc', None)
    end
  else (c, doc, None).

End PreStart.

End SpringWebStartup.

Module SpringWebAddress.

Import SpringWeb.

(** [fmt.Sprintf("%d", n)] of an int: its decimal digits, after a minus sign
    when it is negative. *)
Definition decimal (n : Z) : string :=
  DecimalString.NilZero.string_of_int (Z.to_int n).

(** [Address] *)
Definition Address (WebMapping : Type) (c : BaseWebContainer WebMapping) : string :=
  (IP (config c) ++ ":" ++ decimal (Port (config c)))%string.

End SpringWebAddress.

(* ================================================================= *)
(** * Package SpringGin: the request, the keys and the response *)

Module SpringGinRequest.

(** [*http.Request], as far as [Scheme] reads it. *)
Record Request : Type := mkRequest {
  TLS : bool;                    (* r.TLS != nil *)
  HeaderGet : string -> string   (* r.Header.Get *)
}.

Section Scheme.

(** The header names, constants of package SpringWeb declared in a file that
    is not among the sources. *)
Variable HeaderXForwardedProto : string.
Variable HeaderXForwardedProtocol : string.
Variable HeaderXForwardedSsl : string.
Variable HeaderXUrlScheme : string.

(** [Scheme], of the request [ctx.Request()]. *)
Definition Scheme (r : Request) : string :=
  if TLS r then "https"
  else
    let scheme := HeaderGet r HeaderXForwardedProto in
    if negb (String.eqb scheme "") then scheme
    else
      let scheme := HeaderGet r HeaderXForwardedProtocol in
      if negb (String.eqb scheme "") then scheme
      else
        let ssl := HeaderGet r HeaderXForwardedSsl in
        if String.eqb ssl "on" then "https"
        else
          let scheme := HeaderGet r HeaderXUrlScheme in
          if negb (String.eqb scheme "") then scheme
          else "http".

End Scheme.

(** [IsTLS] *)
Definition IsTLS (r : Request) : bool := TLS r.

End SpringGinRequest.

Module SpringGinKeys.

(** A value stored in [gin.Context.Keys]: the [*Context] of the request, or
    anything else. *)
Inductive Val : Type :=
| VWebContext
| VOther (v : string).

(** [gin.Context.Keys]; a key that is absent maps to [None]. *)
Definition Keys : Type := string -> option Val.

(** How a call on the keys ends. *)
Inductive Outcome (A : Type) : Type :=
| Returns (a : A)
| PanicKeyDoesNotExist (key : string)   (* the panic of gin's MustGet *)
| PanicTypeAssertion.                   (* a failed type assertion *)

Arguments Returns {A} a.
Arguments PanicKeyDoesNotExist {A} key.
Arguments PanicTypeAssertion {A}.

(** The keys of a [*gin.Context] that no one wrote to. *)
Definition noKeys : Keys := fun _ => None.

(** [ctx.Set(key, val)], gin's [c.Keys[key] = value]. *)
Definition Set_ (keys : Keys) (key : string) (val : Val) : Keys :=
  fun k => if String.eqb k key then Some val else keys k.

(** [ctx.Get(key)], gin's [MustGet]: "Returns the value for the given key if
    it exists, otherwise it panics." *)
Definition Get (keys : Keys) (key : string) : Outcome Val :=
  match keys key with
  | Some v => Returns v
  | None => PanicKeyDoesNotExist key
  end.

(** What [NewContext] does to the keys: [webCtx.Set("@WebCtx", webCtx)]. *)
Definition NewContext (keys : Keys) : Keys := Set_ keys "@WebCtx" VWebContext.

(** [WebContext(ginCtx)]: [ginCtx.MustGet("@WebCtx")], asserted to be a
    [*Context]; [tt] stands for the [*Context] of the request. *)
Definition WebContext (keys : Keys) : Outcome unit :=
  match Get keys "@WebCtx" with
  | Returns VWebContext => Returns tt
  | Returns (VOther _) => PanicTypeAssertion
  | PanicKeyDoesNotExist k => PanicKeyDoesNotExist k
  | PanicTypeAssertion => PanicTypeAssertion
  end.

End SpringGinKeys.

Module SpringGinResponse.

Import SpringWeb.

(** What [Context] asks of the engine's response writer. *)
Inductive EngineCall : Type :=
| CHeader (key value : string)   (* ctx.ginContext.Header(key, value) *)
| CStatus (code : Z)             (* ctx.ginContext.Status(code) *)
| CWrite (data : string).        (* ctx.ginContext.Writer.Write(data) *)

(** The calls made on the writer of a request, oldest first. *)
Definition Calls : Type := list EngineCall.

Section Writers.

(** Whether the writer fails a [Write], given the calls made before it: the
    text of the error it returns. *)
Variable writeError : Calls -> string -> option string.

(** Constants of package SpringWeb, declared in a file that is not among the
    sources, and [xml.Header]. *)
Variable HeaderContentType : string.
Variable MIMETextHTMLCharsetUTF8 : string.
Variable MIMEApplicationJSONCharsetUTF8 : string.
Variable MIMEApplicationJavaScriptCharsetUTF8 : string.
Variable xmlHeader : string.

(** [Header] *)
Definition Header (calls : Calls) (key value : string) : Calls :=
  calls ++ [CHeader key value].

(** [Status] *)
Definition Status_ (calls : Calls) (code : Z) : Calls := calls ++ [CStatus code].

(** [response.Write(b)]: the calls, and the error. *)
Definition Write (calls : Calls) (b : string) : Calls * option string :=
  (calls ++ [CWrite b], writeError calls b).

(** [SpringUtils.Panic(err).When(err != nil)] *)
Definition PanicWhenError (r : Calls * option string) : Calls * Completion :=
  match r with
  | (calls, Some err) => (calls, Some (PError err))
  | (calls, None) => (calls, None)
  end.

(** [NoContent] *)
Definition NoContent (calls : Calls) (code : Z) : Calls := Status_ calls code.

(** [Blob] *)
Definition Blob (calls : Calls) (code : Z) (contentType : string) (b : string)
  : Calls * Completion :=
  let calls := Header calls HeaderContentType contentType in
  let calls := Status_ calls code in
  PanicWhenError (Write calls b).

(** [HTML] *)
Definition HTML (calls : Calls) (code : Z) (html : string) : Calls * Completion :=
  Blob calls code MIMETextHTMLCharsetUTF8 html.

(** [HTMLBlob] *)
Definition HTMLBlob (calls : Calls) (code : Z) (b : string) : Calls * Completion :=
  Blob calls code MIMETextHTMLCharsetUTF8 b.

(** [JSONBlob] *)
Definition JSONBlob (calls : Calls) (code : Z) (b : string) : Calls * Completion :=
  Blob calls code MIMEApplicationJSONCharsetUTF8 b.

(** [jsonPBlob] *)
Definition jsonPBlob (calls : Calls) (code : Z) (callback : string)
    (data : Calls -> Calls * option string) : Calls * option string :=
  let calls := Header calls HeaderContentType MIMEApplicationJavaScriptCharsetUTF8 in
  let calls := Status_ calls code in
  match Write calls (callback ++ "(")%string with
  | (calls, Some err) => (calls, Some err)
  | (calls, None) =>
      match data calls with
      | (calls, Some err) => (calls, Some err)
      | (calls, None) =>
          match Write calls ");" with
          | (calls, Some err) => (calls, Some err)
          | (calls, None) => (calls, None)
          end
      end
  end.

(** [JSONPBlob] *)
Definition JSONPBlob (calls : Calls) (code : Z) (callback : string) (b : string)
  : Calls * Completion :=
  PanicWhenError (jsonPBlob calls code callback (fun response => Write response b)).

(** [xmlBlob] *)
Definition xmlBlob (calls : Calls) (code : Z)
    (data : Calls -> Calls * option string) : Calls * option string :=
  let calls := Header calls HeaderContentType MIMEApplicationJavaScriptCharsetUTF8 in
  let calls := Status_ calls code in
  match Write calls xmlHeader with
  | (calls, Some err) => (calls, Some err)
  | (calls, None) => data calls
  end.

(** [XMLBlob] *)
Definition XMLBlob (calls : Calls) (code : Z) (b : string) : Calls * Completion :=
  PanicWhenError (xmlBlob calls code (fun response => Write response b)).

End Writers.

(** The bytes handed to the writer, in order. *)
Definition written (calls : Calls) : list string :=
  flat_map (fun c => match c with CWrite data => [data] | _ => [] end) calls.

(** Whether a call is a write. *)
Definition isWrite (c : EngineCall) : bool :=
  match c with CWrite _ => true | _ => false end.

End SpringGinResponse.

(* ================================================================= *)
(** * Package testcases: the filter of one route, and the service *)

Module testcasesServices.

Import SpringWeb.

(** [GlobalInterruptFilter.Invoke], for a request whose [ctx.Path()] is
    [path]. *)
Definition GlobalInterruptFilter_Invoke (path : string) : Code unit :=
  if String.eqb path "/global_interrupt"
  then Do (LogInfo [AString "global interrupt"]) Return
  else CallNext tt Return.

(** [Service]: its field [store], a [map[string]string]. *)
Record Service : Type := mkService { store : string -> option string }.

(** [NewService] *)
Definition NewService : Service := mkService (fun _ => None).

(** [s.store[key]]: the zero value for a key that is absent. *)
Definition index (s : Service) (key : string) : string :=
  match store s key with
  | Some val => val
  | None => ""
  end.

(** [s.store[key] = val] *)
Definition assign (s : Service) (key val : string) : Service :=
  mkService (fun k => if String.eqb k key then Some val else store s k).

(** What a method of [Service] did: its log calls, the call it made to send
    the response, the service as it leaves it, and its panic, if any. *)
Inductive Sent : Type :=
| SentString (code : Z) (format : string)   (* ctx.String(code, format) *)
| SentNoContent (code : Z)                  (* ctx.NoContent(code) *)
| SentNothing.

Record Done : Type := mkDone {
  logged : list Effect;
  sent : Sent;
  after : Service;
  panicked : Completion
}.

(** [Service.Get], where [key] is [ctx.QueryParam("key")]. *)
Definition Service_Get (s : Service) (key : string) : Done :=
  let val := index s key in
  mkDone [LogInfo [AString "/get "; AString "key="; AString key];
          LogInfo [AString "/get "; AString "val="; AString val]]
         (SentString 200 val) s None.

Section SetMethod.

(** [SpringUtils.ToJson], of the bound parameter. *)
Variable ToJson : string * string -> string.

(** [Service.Set], where [bound] is what [ctx.Bind(&param)] leaves: the
    fields [Name] and [Age] of [param], or the text of the error. *)
Definition Service_Set (s : Service) (bound : string * string + string) : Done :=
  match bound with
  | inr err => mkDone [] SentNothing s (Some (PError err))
  | inl (Name, Age) =>
      let s := assign s "name" Name in
      let s := assign s "age" Age in
      mkDone [LogInfo [AString "/set "; AString ("param=" ++ ToJson (Name, Age))%string]]
             (SentNoContent 200) s None
  end.

End SetMethod.

End testcasesServices.

(* ================================================================= *)
(** * The vocabulary of the properties of the container *)

Module ContainerVocabulary.

Import SpringWeb.

Section Ops.

Variable Mapper : Type.
Variable WebMapping : Type.

(** The calls that write the filter list, the route table, the Swagger
    flag. *)
Definition writesFilters (o : Op Mapper WebMapping) : bool :=
  match o with
  | OpAddFilter _ => true
  | OpResetFilters _ => true
  | _ => false
  end.

Definition writesRoutes (o : Op Mapper WebMapping) : bool :=
  match o with
  | OpAddRouter _ => true
  | OpAddMapper _ => true
  | _ => false
  end.

Definition writesSwagger (o : Op Mapper WebMapping) : bool :=
  match o with
  | OpSetEnableSwagger _ => true
  | _ => false
  end.

End Ops.

End ContainerVocabulary.

(* ================================================================= *)
(** * Properties *)

Import Vocabulary.

Import SpringWeb.

Unset Implicit Arguments.

(** ** The state a piece of code leaves behind *)

Lemma next_record (ev : Event) (w : World) : next (record ev w) = next w.
Proof. reflexivity. Qed.

Lemma next_apply (e : Effect) (w : World) : next (apply e w) = next w.
Proof. destruct e; reflexivity. Qed.

Lemma next_perform (e : Effect) (w : World) : next (perform e w) = next w.
Proof. unfold perform. rewrite next_record. apply next_apply. Qed.

Lemma history_apply (e : Effect) (w : World) : history (apply e w) = history w.
Proof. destruct e; reflexivity. Qed.

Lemma history_perform (e : Effect) (w : World) :
  history (perform e w) = history w ++ [Performed e].
Proof. unfold perform, record; simpl. now rewrite history_apply. Qed.

Lemma performAll_app (es1 es2 : list Effect) (w : World) :
  performAll (es1 ++ es2) w = performAll es2 (performAll es1 w).
Proof. unfold performAll. apply fold_left_app. Qed.

Lemma next_performAll (es : list Effect) (w : World) : next (performAll es w) = next w.
Proof.
  revert w. induction es as [|e es IH]; intro w; simpl; [reflexivity|].
  change (next (performAll es (perform e w)) = next w).
  now rewrite IH, next_perform.
Qed.

Lemma history_performAll (es : list Effect) (w : World) :
  history (performAll es w) = history w ++ map Performed es.
Proof.
  revert w. induction es as [|e es IH]; intro w; simpl.
  - now rewrite app_nil_r.
  - change (history (performAll es (perform e w)) = history w ++ Performed e :: map Performed es).
    rewrite IH, history_perform, <- app_assoc. reflexivity.
Qed.

Lemma exec_emit (chain : Type) (callNext : chain -> World -> option (World * Completion))
    (es : list Effect) (k : Code chain) (w : World) :
  exec callNext (emit es k) w = exec callNext k (performAll es w).
Proof.
  revert w. induction es as [|e es IH]; intro w; simpl; [reflexivity|].
  apply IH.
Qed.

(** ** A handler holds no chain: it performs effects, and nothing else *)

Lemma handler_effects (c : HandlerFunc) (w : World) :
  exists (es : list Effect) (r : Completion),
    exec noChain c w = Some (performAll es w, r).
Proof.
  revert w.
  induction c as [ | v | e k IHk | ch k IHk | d IHd k IHk | h IHh k IHk ]; intro w; simpl.
  - exists [], None. reflexivity.
  - exists [], (Some v). reflexivity.
  - destruct (IHk (perform e w)) as (es & r & E). exists (e :: es), r. exact E.
  - destruct ch.
  - destruct (IHk w) as (es1 & r1 & E1). rewrite E1.
    destruct (IHd (performAll es1 w)) as (es2 & r2 & E2). rewrite E2.
    destruct r2 as [v|].
    + exists (es1 ++ es2), (Some v). now rewrite performAll_app.
    + exists (es1 ++ es2), r1. now rewrite performAll_app.
  - destruct (IHk w) as (es1 & r1 & E1). rewrite E1.
    destruct (IHh (recover r1) (performAll es1 w)) as (es2 & r2 & E2). rewrite E2.
    exists (es1 ++ es2), r2. now rewrite performAll_app.
Qed.

Lemma Handler_Invoke_effects (fn : Handler) (w : World) :
  exists (es : list Effect) (r : Completion),
    Handler_Invoke fn w = Some (performAll es (record HandlerInvoked w), r).
Proof. unfold Handler_Invoke. apply handler_effects. Qed.

(** ** Relations that every run respects *)

Section Respects.

Variable R : World -> World -> Prop.
Hypothesis R_refl : forall w, R w w.
Hypothesis R_trans : forall w1 w2 w3, R w1 w2 -> R w2 w3 -> R w1 w3.
Hypothesis R_perform : forall e w, R w (perform e w).

Lemma exec_respects (chain : Type) (callNext : chain -> World -> option (World * Completion))
    (Hcall : forall ch w w' r, callNext ch w = Some (w', r) -> R w w')
    (c : Code chain) :
  forall w w' r, exec callNext c w = Some (w', r) -> R w w'.
Proof.
  induction c as [ | v | e k IHk | ch k IHk | d IHd k IHk | h IHh k IHk ];
    intros w w' r E; simpl in E.
  - inversion E; subst. apply R_refl.
  - inversion E; subst. apply R_refl.
  - eapply R_trans; [apply R_perform | eapply IHk; eassumption].
  - destruct (callNext ch w) as [[w1 [v|]]|] eqn:C; try discriminate.
    + inversion E; subst. eapply Hcall; eassumption.
    + eapply R_trans; [eapply Hcall; eassumption | eapply IHk; eassumption].
  - destruct (exec callNext k w) as [[w1 r1]|] eqn:E1; try discriminate.
    destruct (exec callNext d w1) as [[w2 [v|]]|] eqn:E2; try discriminate;
      inversion E; subst;
      (eapply R_trans; [eapply IHk; eassumption | eapply IHd; eassumption]).
  - destruct (exec callNext k w) as [[w1 r1]|] eqn:E1; try discriminate.
    eapply R_trans; [eapply IHk; eassumption | eapply IHh; eassumption].
Qed.

Hypothesis R_invoked : forall w, R w (record HandlerInvoked w).

Lemma Handler_Invoke_respects (fn : Handler) (w w' : World) (r : Completion) :
  Handler_Invoke fn w = Some (w', r) -> R w w'.
Proof.
  unfold Handler_Invoke. intro E.
  eapply R_trans; [apply R_invoked|].
  eapply exec_respects; [|eassumption]. intros [].
Qed.

Lemma Filter_Invoke_respects (callNext : unit -> World -> option (World * Completion))
    (Hcall : forall ch w w' r, callNext ch w = Some (w', r) -> R w w')
    (f : Filter) (w w' : World) (r : Completion) :
  Filter_Invoke callNext f w = Some (w', r) -> R w w'.
Proof.
  destruct f as [fn| | |body]; unfold Filter_Invoke; intro E.
  - eapply Handler_Invoke_respects; eassumption.
  - eapply exec_respects; eassumption.
  - eapply exec_respects; eassumption.
  - eapply exec_respects; eassumption.
Qed.

Lemma Next_respects (fs : list Filter)
    (R_dispatch : forall w, next w < length fs -> R w (advance w)) (fuel : nat) :
  forall w w' r, Next fs fuel w = Some (w', r) -> R w w'.
Proof.
  induction fuel as [|fuel IH]; intros w w' r E; simpl in E; [discriminate|].
  destruct (nth_error fs (next w)) as [f|] eqn:Hnth.
  - eapply R_trans.
    + apply R_dispatch. apply nth_error_Some. congruence.
    + eapply Filter_Invoke_respects; [|eassumption]. intros ch ? ? ?. apply IH.
  - inversion E; subst. apply R_refl.
Qed.

End Respects.

(** The cursor of a chain never moves backwards. *)
Lemma Next_monotone (fs : list Filter) (fuel : nat) (w w' : World) (r : Completion) :
  Next fs fuel w = Some (w', r) -> next w <= next w'.
Proof.
  apply (Next_respects (fun a b => next a <= next b)).
  - intros; lia.
  - intros; lia.
  - intros e w0. rewrite next_perform. lia.
  - intros; simpl; lia.
  - intros; simpl; lia.
Qed.

(** ** The order of dispatch *)

Lemma dispatches_app (T1 T2 : list Event) :
  dispatches (T1 ++ T2) = dispatches T1 ++ dispatches T2.
Proof. unfold dispatches. apply flat_map_app. Qed.

Lemma dispatches_performed (es : list Effect) : dispatches (map Performed es) = [].
Proof. induction es as [|e es IH]; simpl; auto. Qed.

Lemma inOrder_refl (L : nat) (w : World) : inOrder L w w.
Proof.
  unfold inOrder. repeat split; auto.
  rewrite Nat.sub_diag. simpl. now rewrite app_nil_r.
Qed.

Lemma inOrder_trans (L : nat) (w1 w2 w3 : World) :
  inOrder L w1 w2 -> inOrder L w2 w3 -> inOrder L w1 w3.
Proof.
  intros (L1 & B1 & D1) (L2 & B2 & D2). unfold inOrder. repeat split.
  - lia.
  - auto.
  - rewrite D2, D1, <- app_assoc. f_equal.
    replace (next w3 - next w1) with ((next w2 - next w1) + (next w3 - next w2)) by lia.
    rewrite seq_app. do 2 f_equal. lia.
Qed.

Lemma inOrder_perform (L : nat) (e : Effect) (w : World) : inOrder L w (perform e w).
Proof.
  unfold inOrder. rewrite next_perform, history_perform, dispatches_app. simpl.
  repeat split; auto. rewrite Nat.sub_diag. reflexivity.
Qed.

Lemma inOrder_invoked (L : nat) (w : World) : inOrder L w (record HandlerInvoked w).
Proof.
  unfold inOrder. simpl. rewrite dispatches_app. simpl.
  repeat split; auto. rewrite Nat.sub_diag. reflexivity.
Qed.

Lemma inOrder_advance (L : nat) (w : World) : next w < L -> inOrder L w (advance w).
Proof.
  intro H. unfold inOrder, advance, record. cbn [next history].
  rewrite dispatches_app.
  replace (S (next w) - next w) with 1 by lia.
  repeat split; try lia.
Qed.

Lemma Next_inOrder (fs : list Filter) (fuel : nat) (w w' : World) (r : Completion) :
  Next fs fuel w = Some (w', r) -> inOrder (length fs) w w'.
Proof.
  apply (Next_respects (inOrder (length fs))).
  - apply inOrder_refl.
  - apply inOrder_trans.
  - apply inOrder_perform.
  - apply inOrder_invoked.
  - apply inOrder_advance.
Qed.

(** ** Every dispatch returns *)

Lemma exec_total (chain : Type) (callNext : chain -> World -> option (World * Completion))
    (c : Code chain) :
  forall w,
    (forall ch w1, next w <= next w1 ->
       exists w2 r, callNext ch w1 = Some (w2, r) /\ next w1 <= next w2) ->
    exists w' r, exec callNext c w = Some (w', r) /\ next w <= next w'.
Proof.
  induction c as [ | v | e k IHk | ch k IHk | d IHd k IHk | h IHh k IHk ];
    intros w Hcall; simpl.
  - eauto.
  - eauto.
  - destruct (IHk (perform e w)) as (w' & r & E & L).
    + intros ch w1 L1. apply Hcall. rewrite next_perform in L1. exact L1.
    + rewrite next_perform in L. eauto.
  - destruct (Hcall ch w (le_n _)) as (w1 & r1 & C & L1). rewrite C.
    destruct r1 as [v|]; [eauto|].
    destruct (IHk w1) as (w' & r & E & L).
    + intros ch' w2 L2. apply Hcall. lia.
    + exists w', r. split; [exact E | lia].
  - destruct (IHk w Hcall) as (w1 & r1 & E1 & L1). rewrite E1.
    destruct (IHd w1) as (w2 & r2 & E2 & L2).
    + intros ch w3 L3. apply Hcall. lia.
    + rewrite E2. destruct r2 as [v|]; eexists _, _; (split; [reflexivity | lia]).
  - destruct (IHk w Hcall) as (w1 & r1 & E1 & L1). rewrite E1.
    destruct (IHh (recover r1) w1) as (w2 & r2 & E2 & L2).
    + intros ch w3 L3. apply Hcall. lia.
    + exists w2, r2. split; [exact E2 | lia].
Qed.

Lemma Handler_Invoke_total (fn : Handler) (w : World) :
  exists w' r, Handler_Invoke fn w = Some (w', r) /\ next w' = next w.
Proof.
  destruct (Handler_Invoke_effects fn w) as (es & r & E).
  eexists _, _. split; [exact E|]. now rewrite next_performAll.
Qed.

(** With more fuel than filters left, [Next] returns. *)
Lemma Next_total (fs : list Filter) (fuel : nat) :
  forall w, length fs - next w < fuel ->
    exists w' r, Next fs fuel w = Some (w', r) /\ next w <= next w'.
Proof.
  induction fuel as [|fuel IH]; intros w Hfuel; [lia|]. simpl.
  destruct (nth_error fs (next w)) as [f|] eqn:Hnth; [|eauto].
  assert (Hlt : next w < length fs) by (apply nth_error_Some; congruence).
  set (w1 := advance w).
  assert (Hcall : forall (ch : unit) w2, next w1 <= next w2 ->
            exists w3 r, (fun _ => Next fs fuel) ch w2 = Some (w3, r) /\ next w2 <= next w3).
  { intros ch w2 L. apply IH. subst w1. simpl in L. lia. }
  assert (Hexec : forall body : Code unit, exists w' r,
            exec (fun _ => Next fs fuel) body w1 = Some (w', r) /\ next w <= next w').
  { intro body. destruct (exec_total unit (fun _ => Next fs fuel) body w1 Hcall) as (w' & r & E & L).
    exists w', r. split; [exact E|]. subst w1. simpl in L. lia. }
  destruct f as [fn| | |body]; unfold Filter_Invoke; try apply Hexec.
  destruct (Handler_Invoke_total fn w1) as (w' & r & E & L).
  exists w', r. split; [exact E|]. subst w1. simpl in L. lia.
Qed.

Lemma InvokeHandler_total (w : World) (fn : Handler) (fs : list Filter) :
  exists w' r, InvokeHandler w fn fs = Some (w', r).
Proof.
  unfold InvokeHandler. destruct (Nat.ltb 0 (length fs)).
  - destruct (Next_total (fs ++ [HandlerFilter fn]) (S (length (fs ++ [HandlerFilter fn])))
                (NewDefaultFilterChain w)) as (w' & r & E & _); [simpl; lia | eauto].
  - destruct (Handler_Invoke_total fn w) as (w' & r & E & _). eauto.
Qed.

Lemma Filter_Invoke_monotone (fs : list Filter) (fuel : nat) (f : Filter)
    (w w' : World) (r : Completion) :
  Filter_Invoke (fun _ => Next fs fuel) f w = Some (w', r) -> next w <= next w'.
Proof.
  apply (Filter_Invoke_respects (fun a b => next a <= next b)).
  - intros; lia.
  - intros; lia.
  - intros e w0. rewrite next_perform. lia.
  - intros; simpl; lia.
  - intros ch w1 w2 r2. apply Next_monotone.
Qed.

Lemma Next_unfold (fs : list Filter) (fuel : nat) (w : World) :
  Next fs (S fuel) w
  = match nth_error fs (next w) with
    | None => Some (w, None)
    | Some f => Filter_Invoke (fun _ => Next fs fuel) f (advance w)
    end.
Proof. reflexivity. Qed.

(** ** The dispatch contract of [InvokeHandler] *)

(** C5: [InvokeHandler(ctx, fn, filters)] with no filter calls
    [fn.Invoke(ctx)] directly, once, and touches no chain; with filters
    [f :: fs] it starts, by one call of [Next], a fresh chain (cursor 0) over
    the filters in their order followed by [HandlerFilter(fn)] as the last
    link, and the links that are handed control are an initial run
    [0, 1, ..., m-1] of the chain, first filter first, so that [fn], the link
    of index [length (f :: fs)], is reached only after every filter. *)
Theorem InvokeHandler_dispatch_contract (w : World) (fn : Handler) (f : Filter)
    (fs : list Filter) :
  (InvokeHandler w fn [] = Handler_Invoke fn w /\
   exists es r,
     InvokeHandler w fn [] = Some (performAll es (record HandlerInvoked w), r) /\
     history (performAll es (record HandlerInvoked w))
       = history w ++ HandlerInvoked :: map Performed es /\
     next (performAll es (record HandlerInvoked w)) = next w)
  /\
  (let chain := (f :: fs) ++ [HandlerFilter fn] in
   InvokeHandler w fn (f :: fs)
     = Next chain (S (length chain)) (NewDefaultFilterChain w) /\
   next (NewDefaultFilterChain w) = 0 /\
   (forall i, i < length (f :: fs) -> nth_error chain i = nth_error (f :: fs) i) /\
   nth_error chain (length (f :: fs)) = Some (HandlerFilter fn) /\
   exists w' r,
     InvokeHandler w fn (f :: fs) = Some (w', r) /\
     1 <= next w' <= length chain /\
     dispatches (history w') = dispatches (history w) ++ seq 0 (next w')).
Proof.
  split.
  - split; [reflexivity|].
    destruct (Handler_Invoke_effects fn w) as (es & r & E).
    exists es, r. split; [exact E|]. split.
    + rewrite history_performAll. simpl. now rewrite <- app_assoc.
    + now rewrite next_performAll.
  - intro chain. split; [reflexivity|]. split; [reflexivity|]. split; [|split].
    + intros i Hi. subst chain. now rewrite nth_error_app1.
    + subst chain. rewrite nth_error_app2 by lia. now rewrite Nat.sub_diag.
    + destruct (InvokeHandler_total w fn (f :: fs)) as (w' & r & E).
      exists w', r. split; [exact E|].
      change (Next chain (S (length chain)) (NewDefaultFilterChain w) = Some (w', r)) in E.
      destruct (Next_inOrder _ _ _ _ _ E) as (_ & B & D).
      cbn [NewDefaultFilterChain next history] in B, D.
      rewrite Nat.sub_0_r in D. split; [split|exact D].
      * rewrite Next_unfold in E.
        change (nth_error chain (next (NewDefaultFilterChain w))) with (Some f) in E.
        apply Filter_Invoke_monotone in E. exact E.
      * apply B. lia.
Qed.

(** ** Chains of filters of the call-then-defer idiom *)

Lemma next_descend (specs : list Segments) (w : World) :
  next (descend specs w) = next w + length specs.
Proof.
  revert w. induction specs as [|s rest IH]; intro w; simpl; [lia|].
  change (next (descend rest (performAll (fst s) (advance w))) = next w + S (length rest)).
  rewrite IH, next_performAll. simpl. lia.
Qed.

Lemma history_descend (specs : list Segments) (w : World) :
  history (descend specs w) = history w ++ preTrace (next w) specs.
Proof.
  revert w. induction specs as [|s rest IH]; intro w; simpl.
  - now rewrite app_nil_r.
  - change (history (descend rest (performAll (fst s) (advance w)))
            = history w ++ Dispatched (next w) :: map Performed (fst s) ++ preTrace (S (next w)) rest).
    rewrite IH, history_performAll, next_performAll. simpl.
    rewrite <- !app_assoc. reflexivity.
Qed.

Lemma history_ascend (specs : list Segments) (w : World) :
  history (ascend specs w) = history w ++ postTrace specs.
Proof.
  induction specs as [|s rest IH]; simpl.
  - now rewrite app_nil_r.
  - change (history (performAll (snd s) (ascend rest w))
            = history w ++ postTrace rest ++ map Performed (snd s)).
    rewrite history_performAll, IH, <- app_assoc. reflexivity.
Qed.

(** From any link on, a chain whose remaining filters follow the idiom runs
    their pre-segments on the way down, the rest of the chain, and their
    post-segments on the way up, whatever way the rest ends. *)
Lemma Next_idioms (tail : list Filter) (rest : list Segments) :
  forall (up chain : list Filter) (fuel : nat) (w : World),
    chain = up ++ map idiomFilter rest ++ tail ->
    next w = length up ->
    Next chain (length rest + fuel) w
    = match Next chain fuel (descend rest w) with
      | Some (W, r) => Some (ascend rest W, r)
      | None => None
      end.
Proof.
  induction rest as [|s rest IH]; intros up chain fuel w Hchain Hnext.
  - simpl. destruct (Next chain fuel w) as [[W r]|]; reflexivity.
  - assert (Hnth : nth_error chain (next w) = Some (idiomFilter s)).
    { rewrite Hchain, Hnext, nth_error_app2, Nat.sub_diag by lia. reflexivity. }
    cbn [length Nat.add]. rewrite Next_unfold, Hnth.
    unfold idiomFilter at 1, Filter_Invoke, callThenDefer.
    cbn [exec]. rewrite exec_emit. cbn [exec].
    rewrite (IH (up ++ [idiomFilter s]) chain fuel (performAll (fst s) (advance w))).
    + change (descend (s :: rest) w) with (descend rest (performAll (fst s) (advance w))).
      destruct (Next chain fuel (descend rest (performAll (fst s) (advance w))))
        as [[W r]|]; [|reflexivity].
      destruct r as [v|]; cbn [exec]; rewrite exec_emit; reflexivity.
    + rewrite Hchain, <- app_assoc. reflexivity.
    + rewrite next_performAll, length_app. simpl. lia.
Qed.

(** [NumberFilter] and [StringFilter] follow the idiom. *)
Lemma NumberFilter_is_idiom (n : Z) (l : nat) :
  testcases.NewNumberFilter n l
  = idiomFilter ([LogInfo [AString "before "; AInt n]; PushBack l n],
                 [LogInfo [AString "after "; AInt n]; PushBack l n]).
Proof. reflexivity. Qed.

Lemma StringFilter_is_idiom (s : string) :
  testcases.NewStringFilter s
  = idiomFilter ([LogInfo [AString "before "; AString s]],
                 [LogInfo [AString "after "; AString s]]).
Proof. reflexivity. Qed.

(** The filters 2, 5 and 7 around a handler that returns: the list they share
    receives 2, 5, 7 on the way down and 7, 5, 2 on the way up. *)
Example number_filters_2_5_7 :
  exists w',
    InvokeHandler idle (FUNC Return)
      [testcases.NewNumberFilter 2 0; testcases.NewNumberFilter 5 0;
       testcases.NewNumberFilter 7 0] = Some (w', None) /\
    heap w' 0 = [2; 5; 7; 7; 5; 2]%Z /\
    dispatches (history w') = [0; 1; 2; 3] /\
    count_occ Nat.eq_dec
      (map (fun ev => match ev with HandlerInvoked => 1 | _ => 0 end) (history w')) 1 = 1.
Proof. eexists. split; [vm_compute; reflexivity|]. repeat split. Qed.

(** A chain of filters of the idiom: the pre-segments on the way down, the
    handler, entered in the world [W0], the post-segments on the way up. *)
Lemma idiom_chain_order (w : World) (fn : Handler) (specs : list Segments) :
  exists (W0 : World) (es : list Effect) (r : Completion),
    history W0 = history w ++ preTrace 0 specs ++ terminalLink specs ++ [HandlerInvoked] /\
    exec noChain (Handler_body fn) W0 = Some (performAll es W0, r) /\
    InvokeHandler w fn (map idiomFilter specs) = Some (ascend specs (performAll es W0), r) /\
    history (ascend specs (performAll es W0))
      = history W0 ++ map Performed es ++ postTrace specs.
Proof.
  destruct specs as [|s rest].
  - destruct (handler_effects (Handler_body fn) (record HandlerInvoked w)) as (es & r & E).
    exists (record HandlerInvoked w), es, r. repeat split.
    + exact E.
    + exact E.
    + simpl. rewrite history_performAll. simpl. now rewrite app_nil_r.
  - set (specs := s :: rest).
    set (W := advance (descend specs (NewDefaultFilterChain w))).
    destruct (handler_effects (Handler_body fn) (record HandlerInvoked W)) as (es & r & E).
    exists (record HandlerInvoked W), es, r. split; [|split; [exact E|split]].
    + subst W. cbn [record advance history].
      rewrite history_descend, next_descend. cbn [NewDefaultFilterChain next history Nat.add].
      unfold terminalLink, specs. rewrite <- !app_assoc. reflexivity.
    + unfold InvokeHandler.
      change (Nat.ltb 0 (length (map idiomFilter specs))) with true. cbv iota zeta.
      set (chain := map idiomFilter specs ++ [HandlerFilter fn]).
      replace (S (length chain)) with (length specs + 2)
        by (subst chain; rewrite length_app, length_map; simpl; lia).
      rewrite (Next_idioms [HandlerFilter fn] specs [] chain 2 (NewDefaultFilterChain w));
        [|reflexivity|reflexivity].
      rewrite Next_unfold.
      assert (Hnth : nth_error chain (next (descend specs (NewDefaultFilterChain w)))
                     = Some (HandlerFilter fn)).
      { rewrite next_descend. cbn [NewDefaultFilterChain next Nat.add].
        subst chain.
        rewrite nth_error_app2 by (rewrite length_map; lia).
        rewrite length_map, Nat.sub_diag. reflexivity. }
      rewrite Hnth. unfold HandlerFilter, Filter_Invoke, Handler_Invoke. fold W.
      rewrite E. reflexivity.
    + rewrite history_ascend, history_performAll, <- app_assoc. reflexivity.
Qed.

(** ** Chains whose filters each call the continuation once *)

Lemma handlerCount_app (T1 T2 : list Event) :
  handlerCount (T1 ++ T2) = handlerCount T1 + handlerCount T2.
Proof. unfold handlerCount. now rewrite filter_app, length_app. Qed.

Lemma handlerCount_performed (es : list Effect) : handlerCount (map Performed es) = 0.
Proof. induction es as [|e es IH]; simpl; auto. Qed.

Lemma handlerCount_performAll (es : list Effect) (w : World) :
  handlerCount (history (performAll es w)) = handlerCount (history w).
Proof.
  rewrite history_performAll, handlerCount_app, handlerCount_performed. lia.
Qed.

Lemma nextFree_effects (f : unit -> World -> option (World * Completion)) (c : Code unit) :
  nextFree c -> forall w, exists es r, exec f c w = Some (performAll es w, r).
Proof.
  induction c as [ | v | e k IHk | ch k IHk | d IHd k IHk | h IHh k IHk ];
    simpl; intros F w.
  - exists [], None. reflexivity.
  - exists [], (Some v). reflexivity.
  - destruct (IHk F (perform e w)) as (es & r & E). exists (e :: es), r. exact E.
  - contradiction.
  - destruct F as [Fd Fk].
    destruct (IHk Fk w) as (es1 & r1 & E1). rewrite E1.
    destruct (IHd Fd (performAll es1 w)) as (es2 & r2 & E2). rewrite E2.
    destruct r2 as [v|]; eexists (es1 ++ es2), _; rewrite performAll_app; reflexivity.
  - destruct F as [Fh Fk].
    destruct (IHk Fk w) as (es1 & r1 & E1). rewrite E1.
    destruct (IHh (recover r1) (Fh (recover r1)) (performAll es1 w)) as (es2 & r2 & E2). rewrite E2.
    exists (es1 ++ es2), r2. now rewrite performAll_app.
Qed.

Section ExactlyOnce.

Variable f : unit -> World -> option (World * Completion).
Variables lo n : nat.

Hypothesis Hf : forall ch w, lo <= next w <= n -> reachesHandler n (f ch) w.

Lemma reachesNextOnce_exec (c : Code unit) :
  reachesNextOnce c ->
  forall w, lo <= next w <= n -> reachesHandler n (exec f c) w.
Proof.
  unfold reachesHandler.
  induction c as [ | v | e k IHk | ch k IHk | d IHd k IHk | h IHh k IHk ];
    simpl; intros O w L.
  - contradiction.
  - contradiction.
  - destruct (IHk O (perform e w)) as (w' & r & E & N & C).
    + now rewrite next_perform.
    + exists w', r. split; [exact E|]. split; [exact N|].
      rewrite C, history_perform, handlerCount_app. unfold handlerCount. simpl. lia.
  - destruct (Hf ch w L) as (w1 & r1 & E1 & N1 & C1). rewrite E1.
    destruct r1 as [v|]; [eauto|].
    destruct (nextFree_effects f k O w1) as (es & r & E). rewrite E.
    exists (performAll es w1), r. split; [reflexivity|].
    now rewrite next_performAll, handlerCount_performAll.
  - destruct O as [[Fd Ok]|[Od Fk]].
    + destruct (IHk Ok w L) as (w1 & r1 & E1 & N1 & C1). rewrite E1.
      destruct (nextFree_effects f d Fd w1) as (es & r2 & E2). rewrite E2.
      destruct r2 as [v|]; eexists _, _; (split; [reflexivity|]);
        now rewrite next_performAll, handlerCount_performAll.
    + destruct (nextFree_effects f k Fk w) as (es & r1 & E1). rewrite E1.
      destruct (IHd Od (performAll es w)) as (w2 & r2 & E2 & N2 & C2).
      * now rewrite next_performAll.
      * rewrite E2. rewrite handlerCount_performAll in C2.
        destruct r2 as [v|]; eexists _, _; (split; [reflexivity|]); auto.
  - destruct O as [[Fh Ok]|[Oh Fk]].
    + destruct (IHk Ok w L) as (w1 & r1 & E1 & N1 & C1). rewrite E1.
      destruct (nextFree_effects f (h (recover r1)) (Fh (recover r1)) w1)
        as (es & r2 & E2). rewrite E2.
      eexists _, _. split; [reflexivity|].
      now rewrite next_performAll, handlerCount_performAll.
    + destruct (nextFree_effects f k Fk w) as (es & r1 & E1). rewrite E1.
      destruct (IHh (recover r1) (Oh (recover r1)) (performAll es w))
        as (w2 & r2 & E2 & N2 & C2).
      * now rewrite next_performAll.
      * rewrite handlerCount_performAll in C2. eauto.
Qed.

End ExactlyOnce.

Lemma Next_reaches_handler (fs : list Filter) (fn : Handler)
    (Hfs : Forall callsNextExactlyOnce fs) (fuel : nat) :
  forall w,
    next w <= length fs ->
    length fs - next w < fuel ->
    reachesHandler (length fs) (Next (fs ++ [HandlerFilter fn]) fuel) w.
Proof.
  induction fuel as [|fuel IH]; intros w L Hfuel; [lia|].
  unfold reachesHandler. rewrite Next_unfold.
  destruct (Nat.eq_dec (next w) (length fs)) as [Heq|Hne].
  - rewrite Heq, nth_error_app2, Nat.sub_diag by lia. simpl.
    destruct (Handler_Invoke_effects fn (advance w)) as (es & r & E). rewrite E.
    eexists _, _. split; [reflexivity|].
    rewrite next_performAll, handlerCount_performAll. simpl.
    rewrite !handlerCount_app. unfold handlerCount. simpl. split; lia.
  - rewrite nth_error_app1 by lia.
    destruct (nth_error fs (next w)) as [g|] eqn:Hnth;
      [|apply nth_error_None in Hnth; lia].
    assert (Hg : callsNextExactlyOnce g).
    { eapply Forall_forall; [exact Hfs|]. eapply nth_error_In; eassumption. }
    assert (Hcall : forall (ch : unit) w1, S (next w) <= next w1 <= length fs ->
              reachesHandler (length fs)
                ((fun _ => Next (fs ++ [HandlerFilter fn]) fuel) ch) w1).
    { intros ch w1 L1. apply IH; lia. }
    assert (Hexec : forall body, reachesNextOnce body ->
              exists w' r,
                exec (fun _ => Next (fs ++ [HandlerFilter fn]) fuel) body (advance w)
                  = Some (w', r) /\
                next w' = S (length fs) /\
                handlerCount (history w') = S (handlerCount (history w))).
    { intros body Hb.
      destruct (reachesNextOnce_exec _ (S (next w)) (length fs) Hcall body Hb (advance w))
        as (w' & r & E & N & C); [simpl; lia|].
      exists w', r. split; [exact E|]. split; [exact N|].
      rewrite C. simpl. rewrite handlerCount_app. unfold handlerCount. simpl. lia. }
    destruct g as [fn'| | |body]; unfold Filter_Invoke; simpl in Hg.
    + contradiction.
    + apply Hexec. exact Hg.
    + apply Hexec. exact Hg.
    + apply Hexec. exact Hg.
Qed.

Lemma idiomFilter_calls_Next_once (s : Segments) : callsNextExactlyOnce (idiomFilter s).
Proof.
  destruct s as [pre post]. simpl. left. split.
  - induction post as [|e post IH]; simpl; auto.
  - induction pre as [|e pre IH]; simpl; auto.
Qed.

(** C2: in a chain of [n] filters that each call the continuation exactly
    once, the dispatch returns, the terminal handler is entered exactly once,
    and the links are handed control in registration order, the handler's
    last.  When the filters follow the call-then-defer idiom the dispatch is,
    in this order: filter 1 dispatched and its pre-segment, ..., filter [n]
    dispatched and its pre-segment, the handler (entered in the world [W0]),
    the post-segment of filter [n], ..., the post-segment of filter 1. *)
Theorem chain_runs_the_handler_once (w : World) (fn : Handler) (fs : list Filter) :
  Forall callsNextExactlyOnce fs ->
  exists w' r,
    InvokeHandler w fn fs = Some (w', r) /\
    handlerCount (history w') = S (handlerCount (history w)) /\
    dispatches (history w')
      = dispatches (history w) ++ match fs with [] => [] | _ :: _ => seq 0 (S (length fs)) end /\
    (forall specs, fs = map idiomFilter specs ->
       exists W0 es,
         history W0 = history w ++ preTrace 0 specs ++ terminalLink specs ++ [HandlerInvoked] /\
         exec noChain (Handler_body fn) W0 = Some (performAll es W0, r) /\
         w' = ascend specs (performAll es W0) /\
         history w' = history W0 ++ map Performed es ++ postTrace specs).
Proof.
  intro Hfs.
  assert (Hidiom : forall w' r, InvokeHandler w fn fs = Some (w', r) ->
            forall specs, fs = map idiomFilter specs ->
            exists W0 es,
              history W0 = history w ++ preTrace 0 specs ++ terminalLink specs ++ [HandlerInvoked] /\
              exec noChain (Handler_body fn) W0 = Some (performAll es W0, r) /\
              w' = ascend specs (performAll es W0) /\
              history w' = history W0 ++ map Performed es ++ postTrace specs).
  { intros w' r E specs Hspecs.
    destruct (idiom_chain_order w fn specs) as (W0 & es & r0 & H1 & H2 & H3 & H4).
    rewrite Hspecs, H3 in E. inversion E; subst.
    exists W0, es. auto. }
  destruct fs as [|g fs'].
  - destruct (Handler_Invoke_effects fn w) as (es & r & E).
    exists (performAll es (record HandlerInvoked w)), r.
    split; [exact E|]. split; [|split].
    + rewrite handlerCount_performAll. simpl. rewrite handlerCount_app.
      unfold handlerCount. simpl. lia.
    + rewrite history_performAll, dispatches_app, dispatches_performed. simpl.
      rewrite dispatches_app. simpl. now rewrite !app_nil_r.
    + apply Hidiom. exact E.
  - set (fs := g :: fs') in *.
    destruct (Next_reaches_handler fs fn Hfs (S (length (fs ++ [HandlerFilter fn])))
                (NewDefaultFilterChain w)) as (w' & r & E & N & C).
    + simpl. lia.
    + rewrite length_app. simpl. lia.
    + exists w', r. split; [exact E|]. split; [exact C|]. split.
      * destruct (Next_inOrder _ _ _ _ _ E) as (_ & _ & D).
        cbn [NewDefaultFilterChain next history] in D.
        rewrite Nat.sub_0_r, N in D. exact D.
      * apply Hidiom. exact E.
Qed.

Lemma chain_witness :
  exists w' r,
    InvokeHandler idle (FUNC Return)
      [defaultRecoveryFilter; testcases.NewNumberFilter 2 0; defaultLoggerFilter] = Some (w', r) /\
    handlerCount (history w') = 1 /\
    dispatches (history w') = [0; 1; 2; 3].
Proof.
  destruct (chain_runs_the_handler_once idle (FUNC Return)
              [defaultRecoveryFilter; testcases.NewNumberFilter 2 0; defaultLoggerFilter])
    as (w' & r & E & C & D & _).
  - apply Forall_cons; [|apply Forall_cons; [|apply Forall_cons; [|apply Forall_nil]]].
    + simpl. left. split; [intros [e|]; exact I | exact I].
    + simpl. left. split; exact I.
    + simpl. exact I.
  - exists w', r. split; [exact E|]. split; [exact C | exact D].
Defined.

(** ** A filter that interrupts *)

Lemma nextFree_irrelevant (f g : unit -> World -> option (World * Completion))
    (c : Code unit) :
  nextFree c -> forall w, exec f c w = exec g c w.
Proof.
  induction c as [ | v | e k IHk | ch k IHk | d IHd k IHk | h IHh k IHk ];
    simpl; intros F w; try reflexivity.
  - now apply IHk.
  - contradiction.
  - destruct F as [Fd Fk]. rewrite (IHk Fk w).
    destruct (exec g k w) as [[w1 r1]|]; [|reflexivity]. now rewrite (IHd Fd w1).
  - destruct F as [Fh Fk]. rewrite (IHk Fk w).
    destruct (exec g k w) as [[w1 r1]|]; [|reflexivity]. now apply IHh.
Qed.

Lemma nextFree_total (f : unit -> World -> option (World * Completion)) (c : Code unit) :
  nextFree c -> forall w, exists w' r, exec f c w = Some (w', r) /\ next w' = next w.
Proof.
  induction c as [ | v | e k IHk | ch k IHk | d IHd k IHk | h IHh k IHk ];
    simpl; intros F w.
  - eauto.
  - eauto.
  - destruct (IHk F (perform e w)) as (w' & r & E & N).
    rewrite next_perform in N. eauto.
  - contradiction.
  - destruct F as [Fd Fk].
    destruct (IHk Fk w) as (w1 & r1 & E1 & N1). rewrite E1.
    destruct (IHd Fd w1) as (w2 & r2 & E2 & N2). rewrite E2.
    destruct r2 as [v|]; eexists _, _; (split; [reflexivity | congruence]).
  - destruct F as [Fh Fk].
    destruct (IHk Fk w) as (w1 & r1 & E1 & N1). rewrite E1.
    destruct (IHh (recover r1) (Fh (recover r1)) w1) as (w2 & r2 & E2 & N2).
    exists w2, r2. split; [exact E2 | congruence].
Qed.

Lemma nextFree_next (f : unit -> World -> option (World * Completion)) (c : Code unit)
    (w w' : World) (r : Completion) :
  nextFree c -> exec f c w = Some (w', r) -> next w' = next w.
Proof.
  intros F E. destruct (nextFree_total f c F w) as (w2 & r2 & E2 & N).
  rewrite E in E2. now inversion E2; subst.
Qed.

(** Code that calls [Next] at most once leaves the cursor at most one link
    past [k], when a call of [Next] from a cursor up to [k] does. *)
Lemma nextOnce_bound (f : unit -> World -> option (World * Completion)) (k : nat)
    (Hf : forall ch w w' r, next w <= k -> f ch w = Some (w', r) -> next w' <= S k)
    (c : Code unit) :
  nextOnce c ->
  forall w w' r, next w <= k -> exec f c w = Some (w', r) -> next w' <= S k.
Proof.
  induction c as [ | v | e kk IHk | ch kk IHk | d IHd kk IHk | h IHh kk IHk ];
    simpl; intros O w w' r L E.
  - inversion E; subst. lia.
  - inversion E; subst. lia.
  - apply (IHk O (perform e w) w' r); [now rewrite next_perform | exact E].
  - destruct (f ch w) as [[w1 [v|]]|] eqn:C; try discriminate.
    + inversion E; subst. eapply Hf; eassumption.
    + rewrite (nextFree_next f kk w1 w' r O E). eapply Hf; eassumption.
  - destruct (exec f kk w) as [[w1 r1]|] eqn:E1; try discriminate.
    assert (E' : exists r2, exec f d w1 = Some (w', r2)).
    { destruct (exec f d w1) as [[w2 [v|]]|]; try discriminate;
        inversion E; subst; eauto. }
    destruct E' as (r2 & E2).
    destruct O as [[Fd Ok]|[Od Fk]].
    + rewrite (nextFree_next f d w1 w' r2 Fd E2). eapply IHk; eassumption.
    + apply (IHd Od w1 w' r2); [|exact E2].
      rewrite (nextFree_next f kk w w1 r1 Fk E1). exact L.
  - destruct (exec f kk w) as [[w1 r1]|] eqn:E1; try discriminate.
    destruct O as [[Fh Ok]|[Oh Fk]].
    + rewrite (nextFree_next f (h (recover r1)) w1 w' r (Fh (recover r1)) E).
      eapply IHk; eassumption.
    + apply (IHh (recover r1) (Oh (recover r1)) w1 w' r); [|exact E].
      rewrite (nextFree_next f kk w w1 r1 Fk E1). exact L.
Qed.

Lemma Handler_Invoke_next (fn : Handler) (w w' : World) (r : Completion) :
  Handler_Invoke fn w = Some (w', r) -> next w' = next w.
Proof.
  intro E. destruct (Handler_Invoke_total fn w) as (w2 & r2 & E2 & N).
  rewrite E in E2. now inversion E2; subst.
Qed.

Lemma Next_interrupted (up : list Filter) (body : Code unit) (rest : list Filter)
    (Hup : Forall callsNextAtMostOnce up) (Hbody : nextFree body) (fuel : nat) :
  forall w w' r,
    next w <= length up ->
    Next (up ++ UserFilter body :: rest) fuel w = Some (w', r) ->
    next w' <= S (length up).
Proof.
  induction fuel as [|fuel IH]; intros w w' r L E; [discriminate|].
  rewrite Next_unfold in E.
  destruct (Nat.eq_dec (next w) (length up)) as [Heq|Hne].
  - rewrite Heq, nth_error_app2, Nat.sub_diag in E by lia. simpl in E.
    apply nextFree_next in E; [|exact Hbody]. simpl in E. lia.
  - assert (Hlt : next w < length up) by lia.
    rewrite nth_error_app1 in E by exact Hlt.
    destruct (nth_error up (next w)) as [f|] eqn:Hnth;
      [|apply nth_error_None in Hnth; lia].
    assert (Hf : callsNextAtMostOnce f).
    { eapply Forall_forall; [exact Hup|]. eapply nth_error_In; eassumption. }
    assert (Hcall : forall (ch : unit) w1 w2 r2, next w1 <= length up ->
              (fun _ => Next (up ++ UserFilter body :: rest) fuel) ch w1 = Some (w2, r2) ->
              next w2 <= S (length up)).
    { intros ch w1 w2 r2 L1 E1. eapply IH; eassumption. }
    destruct f as [fn'| | |body']; unfold Filter_Invoke in E; simpl in Hf.
    + apply Handler_Invoke_next in E. simpl in E. lia.
    + eapply (nextOnce_bound _ (length up) Hcall recoveryFilter_Invoke); [exact Hf| |exact E].
      simpl. lia.
    + eapply (nextOnce_bound _ (length up) Hcall loggerFilter_Invoke); [exact Hf| |exact E].
      simpl. lia.
    + eapply (nextOnce_bound _ (length up) Hcall body'); [exact Hf| |exact E].
      simpl. lia.
Qed.

Lemma In_dispatches (j : nat) (T : list Event) : In (Dispatched j) T -> In j (dispatches T).
Proof.
  intro H. unfold dispatches. apply in_flat_map.
  exists (Dispatched j). split; [exact H | now left].
Qed.

(** What came before the entry of filter [k] may grow at its front, and
    what came after its body may grow at its end by effects. *)
Lemma ranToItsEnd_prefix (w0 w : World) (T0 : list Event) (k : nat) (body : Code unit)
    (w' : World) :
  history w = history w0 ++ T0 -> ranToItsEnd w k body w' -> ranToItsEnd w0 k body w'.
Proof.
  intros H0 (W & es & rk & T1 & T2 & HW & E & Hw' & D).
  exists W, es, rk, (T0 ++ T1), T2. split; [|auto].
  rewrite HW, H0, <- !app_assoc. reflexivity.
Qed.

Lemma ranToItsEnd_suffix (w : World) (k : nat) (body : Code unit) (w' w2 : World)
    (T3 : list Event) :
  history w2 = history w' ++ T3 -> dispatches T3 = [] ->
  ranToItsEnd w k body w' -> ranToItsEnd w k body w2.
Proof.
  intros H3 D3 (W & es & rk & T1 & T2 & HW & E & Hw' & D).
  exists W, es, rk, T1, (T2 ++ T3). split; [exact HW|]. split; [exact E|]. split.
  - rewrite H3, Hw', <- !app_assoc. reflexivity.
  - rewrite dispatches_app, D, D3. reflexivity.
Qed.

(** Code that calls [Next] exactly once hands on what its one call of [Next]
    achieves, when effects before and after preserve it. *)
Section Through.

Variable f : unit -> World -> option (World * Completion).
Variables lo n : nat.
Variable Q : World -> World -> Prop.

Hypothesis Q_before : forall e w w', Q (perform e w) w' -> Q w w'.
Hypothesis Q_after : forall e w w', Q w w' -> Q w (perform e w').
Hypothesis Hf : forall ch w, lo <= next w <= n ->
  exists w' r, f ch w = Some (w', r) /\ next w' = S n /\ Q w w'.

Lemma Q_before_all (es : list Effect) : forall w w', Q (performAll es w) w' -> Q w w'.
Proof.
  induction es as [|e es IH]; intros w w' H; [exact H|].
  apply Q_before with (e := e). apply IH. exact H.
Qed.

Lemma Q_after_all (es : list Effect) : forall w w', Q w w' -> Q w (performAll es w').
Proof.
  induction es as [|e es IH]; intros w w' H; [exact H|].
  change (Q w (performAll es (perform e w'))). apply IH. apply Q_after. exact H.
Qed.

Lemma reachesNextOnce_through (c : Code unit) :
  reachesNextOnce c ->
  forall w, lo <= next w <= n ->
  exists w' r, exec f c w = Some (w', r) /\ next w' = S n /\ Q w w'.
Proof.
  induction c as [ | v | e k IHk | ch k IHk | d IHd k IHk | h IHh k IHk ];
    simpl; intros O w L.
  - contradiction.
  - contradiction.
  - destruct (IHk O (perform e w)) as (w' & r & E & N & C).
    + now rewrite next_perform.
    + exists w', r. split; [exact E|]. split; [exact N|]. eapply Q_before. exact C.
  - destruct (Hf ch w L) as (w1 & r1 & E1 & N1 & C1). rewrite E1.
    destruct r1 as [v|]; [eauto|].
    destruct (nextFree_effects f k O w1) as (es & r & E). rewrite E.
    exists (performAll es w1), r. split; [reflexivity|].
    rewrite next_performAll. split; [exact N1|]. now apply Q_after_all.
  - destruct O as [[Fd Ok]|[Od Fk]].
    + destruct (IHk Ok w L) as (w1 & r1 & E1 & N1 & C1). rewrite E1.
      destruct (nextFree_effects f d Fd w1) as (es & r2 & E2). rewrite E2.
      destruct r2 as [v|]; eexists _, _; (split; [reflexivity|]);
        rewrite next_performAll; (split; [exact N1|]); now apply Q_after_all.
    + destruct (nextFree_effects f k Fk w) as (es & r1 & E1). rewrite E1.
      destruct (IHd Od (performAll es w)) as (w2 & r2 & E2 & N2 & C2).
      * now rewrite next_performAll.
      * rewrite E2. apply Q_before_all in C2.
        destruct r2 as [v|]; eexists _, _; (split; [reflexivity|]); auto.
  - destruct O as [[Fh Ok]|[Oh Fk]].
    + destruct (IHk Ok w L) as (w1 & r1 & E1 & N1 & C1). rewrite E1.
      destruct (nextFree_effects f (h (recover r1)) (Fh (recover r1)) w1)
        as (es & r2 & E2). rewrite E2.
      eexists _, _. split; [reflexivity|].
      rewrite next_performAll. split; [exact N1|]. now apply Q_after_all.
    + destruct (nextFree_effects f k Fk w) as (es & r1 & E1). rewrite E1.
      destruct (IHh (recover r1) (Oh (recover r1)) (performAll es w))
        as (w2 & r2 & E2 & N2 & C2).
      * now rewrite next_performAll.
      * apply Q_before_all in C2. eauto.
Qed.

End Through.

(** Behind filters that each call the continuation exactly once, the
    dispatch reaches filter [k], whose body runs to its end. *)
Lemma Next_reaches_interrupter (up : list Filter) (body : Code unit) (rest : list Filter)
    (Hup : Forall callsNextExactlyOnce up) (Hbody : nextFree body) (fuel : nat) :
  forall w,
    next w <= length up ->
    length up - next w < fuel ->
    exists w' r,
      Next (up ++ UserFilter body :: rest) fuel w = Some (w', r) /\
      next w' = S (length up) /\
      ranToItsEnd w (length up) body w'.
Proof.
  induction fuel as [|fuel IH]; intros w L Hfuel; [lia|].
  rewrite Next_unfold.
  destruct (Nat.eq_dec (next w) (length up)) as [Heq|Hne].
  - rewrite Heq, nth_error_app2, Nat.sub_diag by lia. simpl.
    rewrite (nextFree_irrelevant _ (fun _ _ => None) body Hbody (advance w)).
    destruct (nextFree_effects (fun _ _ => None) body Hbody (advance w)) as (es & rk & E).
    rewrite E. exists (performAll es (advance w)), rk. split; [reflexivity|].
    split; [rewrite next_performAll; simpl; lia|].
    exists (advance w), es, rk, [], []. split; [simpl; now rewrite Heq|].
    split; [exact E|]. split; [|reflexivity].
    now rewrite history_performAll, app_nil_r.
  - rewrite nth_error_app1 by lia.
    destruct (nth_error up (next w)) as [g|] eqn:Hnth;
      [|apply nth_error_None in Hnth; lia].
    assert (Hg : callsNextExactlyOnce g).
    { eapply Forall_forall; [exact Hup|]. eapply nth_error_In; eassumption. }
    assert (Hcall : forall (ch : unit) w1, S (next w) <= next w1 <= length up ->
              exists w' r,
                (fun _ => Next (up ++ UserFilter body :: rest) fuel) ch w1 = Some (w', r) /\
                next w' = S (length up) /\
                ranToItsEnd w1 (length up) body w').
    { intros ch w1 L1. apply IH; lia. }
    assert (Hexec : forall code, reachesNextOnce code ->
              exists w' r,
                exec (fun _ => Next (up ++ UserFilter body :: rest) fuel) code (advance w)
                  = Some (w', r) /\
                next w' = S (length up) /\
                ranToItsEnd w (length up) body w').
    { intros code Hc.
      assert (Hbefore : forall e a b, ranToItsEnd (perform e a) (length up) body b ->
                                      ranToItsEnd a (length up) body b).
      { intros e a b. apply ranToItsEnd_prefix with (T0 := [Performed e]).
        apply history_perform. }
      assert (Hafter : forall e a b, ranToItsEnd a (length up) body b ->
                                     ranToItsEnd a (length up) body (perform e b)).
      { intros e a b. apply ranToItsEnd_suffix with (T3 := [Performed e]);
          [apply history_perform | reflexivity]. }
      destruct (reachesNextOnce_through
                  (fun _ => Next (up ++ UserFilter body :: rest) fuel)
                  (S (next w)) (length up)
                  (fun a b => ranToItsEnd a (length up) body b)
                  Hbefore Hafter Hcall code Hc (advance w))
        as (w' & r & E & N & C); [simpl; lia|].
      exists w', r. split; [exact E|]. split; [exact N|].
      apply ranToItsEnd_prefix with (w := advance w) (T0 := [Dispatched (next w)]);
        [reflexivity | exact C]. }
    destruct g as [fn'| | |code]; unfold Filter_Invoke; simpl in Hg.
    + contradiction.
    + apply Hexec. exact Hg.
    + apply Hexec. exact Hg.
    + apply Hexec. exact Hg.
Qed.

(** C3, as amended: in a chain [up ++ [filter k] ++ down] with terminal
    handler [fn], if filter [k] never calls its continuation and every filter
    before it calls its continuation at most once, then the dispatch returns
    and the links handed control are an initial run [0, ..., m-1] with
    [m <= k+1]: no filter after filter [k] is entered, nor is the terminal
    handler, the link of index [length (up ++ [filter k] ++ down)].  When
    every filter before filter [k] calls its continuation exactly once,
    filter [k] is entered and its body runs to its end without a call of
    [Next], its post-segment included: the history shows its dispatch and,
    right behind it, all the effects of its body.  When the filters before
    filter [k] follow the call-then-defer idiom, their post-segments run
    after it, last to first: none is aborted. *)
Theorem interrupt_stops_the_chain (w : World) (fn : Handler) (up : list Filter)
    (body : Code unit) (down : list Filter) :
  nextFree body ->
  Forall callsNextAtMostOnce up ->
  exists w' r,
    InvokeHandler w fn (up ++ UserFilter body :: down) = Some (w', r) /\
    next w' <= S (length up) /\
    dispatches (history w') = dispatches (history w) ++ seq 0 (next w') /\
    (forall T j, history w' = history w ++ T -> length up < j -> ~ In (Dispatched j) T) /\
    (Forall callsNextExactlyOnce up ->
       next w' = S (length up) /\ ranToItsEnd w (length up) body w') /\
    (forall specs, up = map idiomFilter specs ->
       exists Wk,
         exec (fun _ _ => None) body (advance (descend specs (NewDefaultFilterChain w)))
           = Some (Wk, r) /\
         w' = ascend specs Wk).
Proof.
  intros Hbody Hup.
  set (fs := up ++ UserFilter body :: down).
  set (chain := fs ++ [HandlerFilter fn]).
  assert (Hunfold : InvokeHandler w fn fs
                    = Next chain (S (length chain)) (NewDefaultFilterChain w)).
  { unfold InvokeHandler.
    replace (Nat.ltb 0 (length fs)) with true; [reflexivity|].
    symmetry. apply Nat.ltb_lt. subst fs. rewrite length_app. simpl. lia. }
  assert (Hchain : chain = up ++ UserFilter body :: (down ++ [HandlerFilter fn])).
  { subst chain fs. rewrite <- app_assoc. reflexivity. }
  destruct (InvokeHandler_total w fn fs) as (w' & r & E).
  exists w', r. split; [exact E|].
  rewrite Hunfold in E.
  assert (B : next w' <= S (length up)).
  { rewrite Hchain in E.
    eapply (Next_interrupted up body _ Hup Hbody); [|exact E]. simpl. lia. }
  destruct (Next_inOrder _ _ _ _ _ E) as (_ & _ & D).
  cbn [NewDefaultFilterChain next history] in D. rewrite Nat.sub_0_r in D.
  split; [exact B|]. split; [exact D|]. split; [|split].
  - intros T j HT Hj Hin. apply In_dispatches in Hin.
    rewrite HT, dispatches_app in D. apply app_inv_head in D.
    rewrite D in Hin. apply in_seq in Hin. lia.
  - intro Hexact.
    destruct (Next_reaches_interrupter up body (down ++ [HandlerFilter fn]) Hexact Hbody
                (S (length chain)) (NewDefaultFilterChain w)) as (w2 & r2 & E2 & N & R).
    { simpl. lia. }
    { rewrite Hchain, length_app. simpl. lia. }
    rewrite <- Hchain, E in E2. inversion E2; subst w2 r2. split; [exact N|].
    apply ranToItsEnd_prefix with (w := NewDefaultFilterChain w) (T0 := []);
      [simpl; now rewrite app_nil_r | exact R].
  - intros specs Hspecs.
    set (W := advance (descend specs (NewDefaultFilterChain w))).
    destruct (nextFree_total (fun _ _ => None) body Hbody W) as (Wk & rk & Ek & _).
    replace (S (length chain)) with (length specs + S (S (S (length down)))) in E
      by (rewrite Hchain, Hspecs, length_app, length_map; simpl;
          rewrite length_app; simpl; lia).
    rewrite (Next_idioms (UserFilter body :: (down ++ [HandlerFilter fn])) specs []
               chain _ (NewDefaultFilterChain w)) in E;
      [| rewrite Hchain, Hspecs; reflexivity | reflexivity].
    rewrite Next_unfold in E.
    assert (Hnth : nth_error chain (next (descend specs (NewDefaultFilterChain w)))
                   = Some (UserFilter body)).
    { rewrite next_descend. cbn [NewDefaultFilterChain next Nat.add].
      rewrite Hchain, Hspecs, nth_error_app2 by (rewrite length_map; lia).
      rewrite length_map, Nat.sub_diag. reflexivity. }
    rewrite Hnth in E. unfold Filter_Invoke in E. fold W in E.
    rewrite (nextFree_irrelevant _ (fun _ _ => None) body Hbody W), Ek in E.
    inversion E; subst. exists Wk. split; [exact Ek | reflexivity].
Qed.

Import testcases.

Lemma interrupt_claim_witness :
  exists w' r,
    InvokeHandler idle (FUNC Return) ([NewNumberFilter 1 0] ++ InterruptFilter :: [NewNumberFilter 2 0])
      = Some (w', r) /\
    next w' <= 2 /\
    dispatches (history w') = dispatches (history idle) ++ seq 0 (next w') /\
    (forall T j, history w' = history idle ++ T -> 1 < j -> ~ In (Dispatched j) T) /\
    (next w' = 2 /\ ranToItsEnd idle 1 InterruptFilter_Invoke w') /\
    (forall specs, [NewNumberFilter 1 0] = map idiomFilter specs ->
       exists Wk,
         exec (fun _ _ => None) InterruptFilter_Invoke
              (advance (descend specs (NewDefaultFilterChain idle))) = Some (Wk, r) /\
         w' = ascend specs Wk).
Proof.
  assert (Hbody : nextFree InterruptFilter_Invoke) by (simpl; exact I).
  assert (Hup : Forall callsNextAtMostOnce [NewNumberFilter 1 0]).
  { constructor; [|constructor]. simpl. left. split; [split; exact I | exact I]. }
  assert (Hexact : Forall callsNextExactlyOnce [NewNumberFilter 1 0]).
  { constructor; [|constructor]. simpl. left. split; [split; exact I | exact I]. }
  destruct (interrupt_stops_the_chain idle (FUNC Return) [NewNumberFilter 1 0]
              InterruptFilter_Invoke [NewNumberFilter 2 0] Hbody Hup)
    as (w' & r & E & B & D & Hlater & Hruns & Hidiom).
  exists w', r. split; [exact E|]. split; [exact B|]. split; [exact D|].
  split; [exact Hlater|]. split; [exact (Hruns Hexact) | exact Hidiom].
Defined.

(** The interrupt property fails without a condition on the filters before
    the interrupting one.  When the first filter calls [Next] twice, its
    second call, after [InterruptFilter] returned, hands control to the
    filter after [InterruptFilter], which reaches the handler.  And when the
    first filter never calls [Next], the interrupting filter behind it is
    not entered: no part of it executes. *)
Lemma interrupt_depends_on_the_filters_before :
  ~ interruptIsolates idle (FUNC Return)
      [callsNextTwice; InterruptFilter; NewNumberFilter 3 0] 1 /\
  ~ interrupterRuns idle (FUNC Return) [InterruptFilter; InterruptFilter] 1.
Proof.
  split; intro H.
  - destruct (InvokeHandler idle (FUNC Return)
                [callsNextTwice; InterruptFilter; NewNumberFilter 3 0])
      as [[w' r]|] eqn:E; [|vm_compute in E; discriminate].
    apply (H InterruptFilter_Invoke w' r (history w') eq_refl I E eq_refl 2 (le_n 2)).
    vm_compute in E. inversion E; subst. simpl. auto 10.
  - destruct (InvokeHandler idle (FUNC Return) [InterruptFilter; InterruptFilter])
      as [[w' r]|] eqn:E; [|vm_compute in E; discriminate].
    destruct (H InterruptFilter_Invoke w' r eq_refl I E)
      as (W & es & rk & T1 & T2 & HW & _ & Hw' & _).
    assert (Hin : In (Dispatched 1) (history w')).
    { rewrite Hw', HW. apply in_or_app. left. apply in_or_app. right.
      apply in_or_app. right. now left. }
    vm_compute in E. inversion E; subst. simpl in Hin.
    destruct Hin as [Hin|[Hin|[]]]; discriminate.
Qed.

(** ** The recovery filter *)

(** The two filters of the package call their continuation once. *)
Lemma default_filters_call_Next_once :
  callsNextAtMostOnce defaultRecoveryFilter /\ callsNextAtMostOnce defaultLoggerFilter.
Proof.
  split; simpl.
  - left. split; [|exact I]. intros [e|]; exact I.
  - exact I.
Qed.

Lemma recoveryFilter_returns (callNext : unit -> World -> option (World * Completion))
    (w w' : World) (r : Completion) :
  exec callNext recoveryFilter_Invoke w = Some (w', r) -> r = None.
Proof.
  unfold recoveryFilter_Invoke. cbn [exec].
  destruct (callNext tt w) as [[w1 [[| | | |]|]]|]; cbn [exec recover]; intro E;
    inversion E; reflexivity.
Qed.

(** A dispatch whose first filter is the recovery filter ends normally. *)
Lemma dispatch_behind_recovery_returns (w : World) (fn : Handler) (down : list Filter) :
  exists w', InvokeHandler w fn (defaultRecoveryFilter :: down) = Some (w', None).
Proof.
  destruct (InvokeHandler_total w fn (defaultRecoveryFilter :: down)) as (w' & r & E).
  exists w'. rewrite E. do 2 f_equal.
  unfold InvokeHandler in E. cbn [length Nat.ltb Nat.leb] in E. cbv zeta in E.
  rewrite Next_unfold in E. cbn [app NewDefaultFilterChain next nth_error] in E.
  unfold Filter_Invoke in E. eapply recoveryFilter_returns. exact E.
Qed.

(** C1: let [callNext] be what the recovery filter's call [chain.Next(ctx)]
    does, for any implementation of [FilterChain]: the downstream filters and
    the terminal handler.  When it ends in a panic with a value [v] other
    than nil, the recovery filter returns normally, having logged exactly one
    error entry and set the status to 500; and whatever [callNext] does, a
    panic with nil included, the recovery filter returns normally: no panic
    passes it. *)
Theorem recovery_catches_downstream_panic
    (callNext : unit -> World -> option (World * Completion))
    (w w1 : World) (v : PanicValue) :
  v <> PNil ->
  callNext tt w = Some (w1, Some v) ->
  let entry := [AString "[PANIC RECOVER] "; APanic v] in
  let w' := perform (Status StatusInternalServerError) (perform (LogError entry) w1) in
  Filter_Invoke callNext defaultRecoveryFilter w = Some (w', None) /\
  logs w' = logs w1 ++ [mkEntry ERROR entry] /\
  status w' = 500%Z /\
  history w' = history w1 ++ [Performed (LogError entry);
                              Performed (Status StatusInternalServerError)] /\
  (forall w0 w2 r,
     Filter_Invoke callNext defaultRecoveryFilter w0 = Some (w2, r) -> r = None).
Proof.
  intros Hv E entry w'. split; [|split; [|split; [|split]]].
  - unfold Filter_Invoke, recoveryFilter_Invoke. cbn [exec]. rewrite E.
    subst w' entry. destruct v; [contradiction| | | |]; reflexivity.
  - reflexivity.
  - reflexivity.
  - subst w'. rewrite !history_perform, <- app_assoc. reflexivity.
  - intros w0 w2 r. unfold Filter_Invoke. apply recoveryFilter_returns.
Qed.

Lemma recovery_witness :
  exists w1,
    let fs := [defaultRecoveryFilter; NewNumberFilter 2 0; HandlerFilter (FUNC Service_Panic)] in
    let v := PString "this is a panic" in
    let entry := [AString "[PANIC RECOVER] "; APanic v] in
    let w' := perform (Status StatusInternalServerError) (perform (LogError entry) w1) in
    Next fs 3 (advance idle) = Some (w1, Some v) /\
    Filter_Invoke (fun _ => Next fs 3) defaultRecoveryFilter (advance idle) = Some (w', None) /\
    logs w' = logs w1 ++ [mkEntry ERROR entry] /\
    status w' = 500%Z.
Proof.
  eexists. cbv zeta.
  assert (E : (fun _ : unit =>
                 Next [defaultRecoveryFilter; NewNumberFilter 2 0;
                       HandlerFilter (FUNC Service_Panic)] 3) tt (advance idle)
              = Some (_, Some (PString "this is a panic"))) by (vm_compute; reflexivity).
  split; [exact E|].
  assert (Hv : PString "this is a panic" <> PNil) by discriminate.
  destruct (recovery_catches_downstream_panic _ _ _ _ Hv E) as (H1 & H2 & H3 & _).
  split; [exact H1|]. split; [exact H2 | exact H3].
Defined.

(** A handler that executes [panic(nil)], behind the recovery filter:
    [recover()] returns nil, so the filter stops the panic but logs nothing
    and leaves the status as it was. *)
Lemma recovery_is_silent_on_a_nil_panic :
  let callNext := fun (_ : unit) => Handler_Invoke (FUNC (Panic PNil)) in
  exists w1 w',
    callNext tt idle = Some (w1, Some PNil) /\
    Filter_Invoke callNext defaultRecoveryFilter idle = Some (w', None) /\
    logs w' = logs w1 /\
    logs w' = [] /\
    status w' = status w1 /\
    status w' <> StatusInternalServerError.
Proof.
  do 2 eexists. cbv zeta.
  split; [vm_compute; reflexivity|].
  split; [vm_compute; reflexivity|].
  repeat split. discriminate.
Qed.

(** The request [/panic] of the tests, behind the recovery filter: the
    handler panics, the client receives 500, one error entry is logged and
    the dispatch returns. *)
Example panic_behind_recovery :
  exists w',
    InvokeHandler idle (FUNC Service_Panic) [defaultRecoveryFilter; NewNumberFilter 2 0]
      = Some (w', None) /\
    status w' = 500%Z /\
    filter (fun entry => match level entry with ERROR => true | INFO => false end) (logs w')
      = [mkEntry ERROR [AString "[PANIC RECOVER] "; APanic (PString "this is a panic")]].
Proof. eexists. split; [vm_compute; reflexivity|]. split; reflexivity. Qed.

(** ** Handlers bound to a method by name *)

Lemma METHOD_found (o : Object) (methodName : string) (m : Method) :
  lookupMethod (methods o) methodName = Some m ->
  METHOD (Some o) methodName = Ok (methodHandler (Some o) (MethodValue m) methodName) /\
  Handler_body (methodHandler (Some o) (MethodValue m) methodName) = Call (MethodValue m).
Proof. intro H. unfold METHOD, MethodByName. rewrite H. split; reflexivity. Qed.

(** Without the method, [METHOD] panics, whatever the receiver: no handler
    leaves the constructor. *)
Lemma METHOD_missing (receiver : option Object) (methodName : string) :
  (forall o, receiver = Some o -> lookupMethod (methods o) methodName = None) ->
  exists v, METHOD receiver methodName = Panics v.
Proof.
  intro H. unfold METHOD, MethodByName. destruct receiver as [o|]; [|eauto].
  rewrite (H o eq_refl). simpl. eauto.
Qed.

(** The panic of [METHOD] that names the method is never raised: [IsZero]
    returns false on a method and panics on the zero Value. *)
Lemma METHOD_never_names_the_method (receiver : option Object) (methodName : string) :
  METHOD receiver methodName <> Panics (PError ("can't find method " ++ methodName)%string).
Proof.
  unfold METHOD, MethodByName. destruct receiver as [o|]; [|discriminate].
  destruct (lookupMethod (methods o) methodName); simpl; discriminate.
Qed.

(** C6, at the receiver [Service] and the method name [Missing]: the
    construction fails, but in [reflect.Value.IsZero], called on the zero
    Value, and not with the error that names the method, which no call of
    [METHOD] raises. *)
Theorem METHOD_missing_method_panics_in_IsZero :
  METHOD (Some Service) "Missing" = Panics (PValueError "reflect.Value.IsZero" Invalid) /\
  METHOD (Some Service) "Missing" <> Panics (PError "can't find method Missing") /\
  (forall receiver methodName,
     METHOD receiver methodName
     <> Panics (PError ("can't find method " ++ methodName)%string)).
Proof.
  split; [reflexivity|]. split; [discriminate|]. apply METHOD_never_names_the_method.
Qed.

(** ** The container *)

Section ContainerFacts.

Variable Mapper : Type.
Variable WebMapping : Type.
Variable NewDefaultWebMapping : WebMapping.
Variable WebMapping_AddMapper : WebMapping -> Mapper -> WebMapping.
Variable WebMapping_Mappers : WebMapping -> list Mapper.

Local Abbreviation Container := (BaseWebContainer WebMapping).
Local Abbreviation New := (NewBaseWebContainer NewDefaultWebMapping).
Local Abbreviation runOps := (run WebMapping_AddMapper WebMapping_Mappers).
Local Abbreviation stepOp := (step WebMapping_AddMapper WebMapping_Mappers).

Lemma AddRouter_frame (c : Container) (router : Router WebMapping) :
  let c' := AddRouter WebMapping_AddMapper WebMapping_Mappers c router in
  config c' = config c /\ filters c' = filters c /\ enableSwg c' = enableSwg c /\
  loggerFilter c' = loggerFilter c /\ recoveryFilter c' = recoveryFilter c.
Proof.
  unfold AddRouter. generalize (WebMapping_Mappers (mapping router)). intro ms.
  revert c. induction ms as [|m ms IH]; intro c; simpl; [auto|].
  destruct (IH (AddMapper WebMapping_AddMapper c m)) as (H1 & H2 & H3 & H4 & H5).
  simpl in *. auto.
Qed.

Lemma step_config (c : Container) (o : Op Mapper WebMapping) : config (stepOp c o) = config c.
Proof. destruct o; try reflexivity. apply AddRouter_frame. Qed.

Lemma step_default_filters (c : Container) (o : Op Mapper WebMapping) :
  setsDefaultFilter o = false ->
  loggerFilter (stepOp c o) = loggerFilter c /\
  recoveryFilter (stepOp c o) = recoveryFilter c.
Proof.
  destruct o; simpl; intro H; try discriminate; auto.
  split; apply AddRouter_frame.
Qed.

Lemma run_default_filters (ops : list (Op Mapper WebMapping)) :
  forall c : Container,
    existsb (@setsDefaultFilter Mapper WebMapping) ops = false ->
    loggerFilter (runOps c ops) = loggerFilter c /\
    recoveryFilter (runOps c ops) = recoveryFilter c.
Proof.
  induction ops as [|o ops IH]; intros c H; simpl; [auto|].
  simpl in H. apply orb_false_iff in H. destruct H as [Ho Hops].
  destruct (IH (stepOp c o) Hops) as [H1 H2].
  destruct (step_default_filters c o Ho) as [H3 H4].
  unfold run in *. simpl. split; congruence.
Qed.

(** C8: after any run of [AddFilter], [ResetFilters], [SetLoggerFilter],
    [SetRecoveryFilter], [SetEnableSwagger], [AddRouter] and [AddMapper] on a
    container built by [NewBaseWebContainer(config)], [Config()] returns
    [config], every field of it as it was given. *)
Theorem Config_is_the_construction_snapshot (cfg : ContainerConfig)
    (ops : list (Op Mapper WebMapping)) :
  let c := runOps (New cfg) ops in
  Config c = cfg /\
  IP (Config c) = IP cfg /\ Port (Config c) = Port cfg /\
  EnableSSL (Config c) = EnableSSL cfg /\
  KeyFile (Config c) = KeyFile cfg /\ CertFile (Config c) = CertFile cfg /\
  ReadTimeout (Config c) = ReadTimeout cfg /\ WriteTimeout (Config c) = WriteTimeout cfg.
Proof.
  assert (H : forall c0 : Container, Config (runOps c0 ops) = config c0).
  { induction ops as [|o ops' IH]; intro c0; [reflexivity|].
    unfold run. simpl. unfold run in IH. rewrite IH. apply step_config. }
  intro c. subst c. rewrite (H (New cfg)). simpl. repeat split.
Qed.

(** C9: [NewBaseWebContainer] enables Swagger and installs the two
    package-level filters; as long as neither [SetLoggerFilter] nor
    [SetRecoveryFilter] is called the container keeps them, so that its
    recovery filter is not nil and any two such containers hold the same
    filter instances. *)
Theorem new_container_has_the_default_filters (cfg1 cfg2 : ContainerConfig)
    (ops1 ops2 : list (Op Mapper WebMapping)) :
  existsb (@setsDefaultFilter Mapper WebMapping) ops1 = false ->
  existsb (@setsDefaultFilter Mapper WebMapping) ops2 = false ->
  EnableSwagger (New cfg1) = true /\
  GetLoggerFilter (New cfg1) = Some defaultLoggerFilter /\
  GetRecoveryFilter (New cfg1) = Some defaultRecoveryFilter /\
  GetLoggerFilter (runOps (New cfg1) ops1) = Some defaultLoggerFilter /\
  GetRecoveryFilter (runOps (New cfg1) ops1) = Some defaultRecoveryFilter /\
  GetRecoveryFilter (runOps (New cfg1) ops1) <> None /\
  GetLoggerFilter (runOps (New cfg1) ops1) = GetLoggerFilter (runOps (New cfg2) ops2) /\
  GetRecoveryFilter (runOps (New cfg1) ops1) = GetRecoveryFilter (runOps (New cfg2) ops2).
Proof.
  intros H1 H2.
  destruct (run_default_filters ops1 (New cfg1) H1) as [L1 R1].
  destruct (run_default_filters ops2 (New cfg2) H2) as [L2 R2].
  unfold GetLoggerFilter, GetRecoveryFilter.
  rewrite L1, R1, L2, R2. simpl. repeat split; discriminate.
Qed.

End ContainerFacts.

Lemma new_container_witness :
  EnableSwagger (NewBaseWebContainer (@nil string) (mkConfig "" 8080 false "" "" 0 0)) = true /\
  GetRecoveryFilter
    (run (fun (m : list string) x => m ++ [x]) (fun m => m)
         (NewBaseWebContainer [] (mkConfig "" 8080 false "" "" 0 0))
         [OpAddFilter [defaultLoggerFilter]; OpAddMapper "/get"; OpSetEnableSwagger false])
  = GetRecoveryFilter
      (run (fun (m : list string) x => m ++ [x]) (fun m => m)
           (NewBaseWebContainer [] (mkConfig "127.0.0.1" 9090 true "k" "c" 5 5))
           [OpAddRouter (mkRouter ["/a"; "/b"])]).
Proof.
  pose proof (new_container_has_the_default_filters string (list string) []
                (fun m x => m ++ [x]) (fun m => m)
                (mkConfig "" 8080 false "" "" 0 0)
                (mkConfig "127.0.0.1" 9090 true "k" "c" 5 5)
                [OpAddFilter [defaultLoggerFilter]; OpAddMapper "/get"; OpSetEnableSwagger false]
                [OpAddRouter (mkRouter ["/a"; "/b"])]
                eq_refl eq_refl) as H.
  split; [apply H|]. apply H.
Defined.

(** ** Path parameters of the gin adapter *)

Import SpringGin.

Lemma fold_left_snoc (A B : Type) (g : A -> B) (l : list A) :
  forall acc, fold_left (fun acc e => acc ++ [g e]) l acc = acc ++ map g l.
Proof.
  induction l as [|a l IH]; intro acc; simpl.
  - now rewrite app_nil_r.
  - rewrite IH, <- app_assoc. reflexivity.
Qed.

Lemma slice_is_withoutFirstByte (v : string) :
  (if Nat.ltb 0 (String.length v) then sliceFrom 1 v else v) = withoutFirstByte v.
Proof. destruct v; reflexivity. Qed.

Lemma PathParam_spec (ctx : Context) (name : string) :
  PathParam ctx name
  = withoutFirstByte
      (ByName (ginParams ctx) (if String.eqb name "*" then wildCardName ctx else name)).
Proof.
  unfold PathParam, Param_. cbv zeta.
  destruct (ByName (ginParams ctx) _) as [|c rest]; reflexivity.
Qed.

Lemma PathParamValues_fresh (path wild : string) (params : Params) :
  PathParamValues (NewContext path wild params)
  = (map (fun e => withoutFirstByte (Value e)) params,
     mkContext params path None (Some (map (fun e => withoutFirstByte (Value e)) params)) wild).
Proof.
  unfold PathParamValues, NewContext. cbn [pathParamValues ginParams handlerPath
    pathParamNames wildCardName]. cbv zeta.
  rewrite (fold_left_snoc Param string
             (fun entry => if Nat.ltb 0 (String.length (Value entry))
                           then sliceFrom 1 (Value entry) else Value entry)).
  cbn [app].
  rewrite (map_ext _ (fun e => withoutFirstByte (Value e)))
    by (intro e; apply slice_is_withoutFirstByte).
  reflexivity.
Qed.

Lemma PathParamNames_fresh (path wild : string) (params : Params) :
  PathParamNames (NewContext path wild params)
  = (map (fun e => canonicalName wild (Key e)) params,
     mkContext params path (Some (map (fun e => canonicalName wild (Key e)) params)) None wild).
Proof.
  unfold PathParamNames, NewContext. cbn [pathParamValues ginParams handlerPath
    pathParamNames wildCardName]. cbv zeta.
  rewrite (fold_left_snoc Param string
             (fun entry => if String.eqb (Key entry) wild then "*" else Key entry)).
  reflexivity.
Qed.

(** C4: [PathParam] returns the value the engine stores for the parameter
    without its first byte (the empty string for an empty value), and
    [PathParamValues] lists the stored values so stripped, on a first call as
    on a second; the value ["/sub/dir"] that the engine stores for the
    wildcard of [/files/*] on the request path [/files/sub/dir] is exposed as
    ["sub/dir"], one separator stripped. *)
Theorem PathParam_strips_one_leading_byte (path wild : string) (params : Params) :
  (forall ctx name,
     PathParam ctx name
     = withoutFirstByte
         (ByName (ginParams ctx) (if String.eqb name "*" then wildCardName ctx else name))) /\
  (forall c rest, withoutFirstByte (String c rest) = rest) /\
  withoutFirstByte "" = "" /\
  fst (PathParamValues (NewContext path wild params))
    = map (fun e => withoutFirstByte (Value e)) params /\
  fst (PathParamValues (snd (PathParamValues (NewContext path wild params))))
    = map (fun e => withoutFirstByte (Value e)) params /\
  PathParam (NewContext "/files/*" wild [mkParam wild "/sub/dir"]) "*" = "sub/dir" /\
  fst (PathParamValues (NewContext "/files/*" wild [mkParam wild "/sub/dir"])) = ["sub/dir"].
Proof.
  split; [apply PathParam_spec|]. split; [reflexivity|]. split; [reflexivity|].
  rewrite !PathParamValues_fresh. split; [reflexivity|]. split; [reflexivity|].
  split; [|reflexivity].
  rewrite PathParam_spec. simpl. now rewrite String.eqb_refl.
Qed.

Lemma ByName_first (wild : string) (params : Params) :
  forall i e,
    nth_error params i = Some e ->
    Key e = wild ->
    (forall j e', j < i -> nth_error params j = Some e' -> Key e' <> wild) ->
    ByName params wild = Value e.
Proof.
  induction params as [|p params IH]; intros i e Hnth Hkey Hfirst.
  - destruct i; discriminate.
  - destruct i as [|i]; simpl in *.
    + inversion Hnth; subst. now rewrite String.eqb_refl.
    + destruct (String.eqb (Key p) wild) eqn:Heq.
      * apply String.eqb_eq in Heq. exfalso.
        apply (Hfirst 0 p); [lia | reflexivity | exact Heq].
      * apply (IH i e Hnth Hkey). intros j e' Hj Hn.
        apply (Hfirst (S j) e'); [lia | exact Hn].
Qed.

(** C10, as amended: [PathParam("*")] looks the value up under the route's
    wildcard name, and [PathParamNames] lists a parameter of that name as
    ["*"]; so for the wildcard parameter, whatever its name, when no
    parameter of the engine before it carries that name, the name enumerated
    at its position is ["*"] and the lookup under ["*"] returns the value
    enumerated at that position. *)
Theorem wildcard_is_addressed_by_star (path wild : string) (params : Params)
    (i : nat) (e : Param) :
  nth_error params i = Some e ->
  Key e = wild ->
  (forall j e', j < i -> nth_error params j = Some e' -> Key e' <> wild) ->
  let ctx := NewContext path wild params in
  PathParam ctx "*" = withoutFirstByte (ByName params wild) /\
  fst (PathParamNames ctx) = map (fun e => canonicalName wild (Key e)) params /\
  nth_error (fst (PathParamNames ctx)) i = Some "*" /\
  PathParam ctx "*" = withoutFirstByte (Value e) /\
  nth_error (fst (PathParamValues ctx)) i = Some (PathParam ctx "*") /\
  fst (PathParamNames (snd (PathParamNames ctx))) = fst (PathParamNames ctx).
Proof.
  intros Hnth Hkey Hfirst ctx.
  assert (Hstar : PathParam ctx "*" = withoutFirstByte (ByName params wild)).
  { subst ctx. rewrite PathParam_spec. reflexivity. }
  assert (Hval : PathParam ctx "*" = withoutFirstByte (Value e)).
  { rewrite Hstar. f_equal. eapply ByName_first; eassumption. }
  split; [exact Hstar|]. subst ctx.
  rewrite PathParamNames_fresh, PathParamValues_fresh. cbn [fst].
  split; [reflexivity|]. split; [|split; [exact Hval|split; [|reflexivity]]].
  - rewrite nth_error_map, Hnth. simpl. unfold canonicalName.
    now rewrite Hkey, String.eqb_refl.
  - rewrite nth_error_map, Hnth. simpl. now rewrite Hval.
Qed.

Lemma wildcard_witness :
  let ctx := NewContext "/users/:id/files/*" "rest"
               [mkParam "id" "/7"; mkParam "rest" "/sub/dir"] in
  PathParam ctx "*" = withoutFirstByte (ByName [mkParam "id" "/7"; mkParam "rest" "/sub/dir"] "rest") /\
  fst (PathParamNames ctx)
    = map (fun e => canonicalName "rest" (Key e)) [mkParam "id" "/7"; mkParam "rest" "/sub/dir"] /\
  nth_error (fst (PathParamNames ctx)) 1 = Some "*" /\
  PathParam ctx "*" = withoutFirstByte (Value (mkParam "rest" "/sub/dir")) /\
  nth_error (fst (PathParamValues ctx)) 1 = Some (PathParam ctx "*") /\
  fst (PathParamNames (snd (PathParamNames ctx))) = fst (PathParamNames ctx).
Proof.
  apply (wildcard_is_addressed_by_star "/users/:id/files/*" "rest"
           [mkParam "id" "/7"; mkParam "rest" "/sub/dir"] 1 (mkParam "rest" "/sub/dir")).
  - reflexivity.
  - reflexivity.
  - intros j e' Hj Hn. destruct j as [|j]; [|lia].
    simpl in Hn. inversion Hn; subst. simpl. discriminate.
Defined.

(** Two parameters of the engine under the wildcard's name: [PathParamNames]
    lists ["*"] for both, and [PathParam] answers ["*"] with the value of the
    first, not with the value of the wildcard parameter, the last one. *)
Lemma wildcard_shadowed_by_an_earlier_parameter :
  let params := [mkParam "x" "/1"; mkParam "x" "/rest/path"] in
  let ctx := NewContext "/a/:x/*x" "x" params in
  fst (PathParamNames ctx) = ["*"; "*"] /\
  fst (PathParamValues ctx) = ["1"; "rest/path"] /\
  PathParam ctx "*" = "1" /\
  nth_error (fst (PathParamValues ctx)) 1 <> Some (PathParam ctx "*").
Proof.
  cbv zeta. split; [reflexivity|]. split; [reflexivity|]. split; [reflexivity|].
  vm_compute. discriminate.
Qed.

(** ** Binding an [EchoRequest] *)

Import Binding.

Lemma bound_request_is_valid (rawQuery : string) (request : EchoRequest) :
  bindEchoRequest rawQuery = Some request -> String.length (Str request) = 4.
Proof.
  unfold bindEchoRequest. cbv zeta.
  set (bound := if String.eqb _ "" then _ else _).
  destruct (forallb _ _) eqn:V; [|discriminate].
  intro E. inversion E; subst. simpl in V.
  apply andb_true_iff in V. destruct V as [_ V].
  apply andb_true_iff in V. destruct V as [V _].
  now apply Nat.eqb_eq in V.
Qed.

(** C7: bound from the query [str=abcd], the request passes validation, has
    its field set, and the function is called with it; bound from [str=ab]
    it fails validation, the client receives the status of a binding
    failure, of the 4xx class, and the function is not called.  No request
    that fails validation reaches a function, and every request that reaches
    one has a field of length 4. *)
Theorem Echo_request_is_validated_before_the_call (bindFailureStatus : Z) :
  (400 <= bindFailureStatus < 500)%Z ->
  bindEchoRequest "str=abcd" = Some (mkEchoRequest "abcd") /\
  bindHandler_Invoke bindFailureStatus RpcService_Echo "str=abcd"
    = mkReply StatusOK (JSON (mkEchoResponse "echo abcd")) [mkEchoRequest "abcd"] /\
  bindEchoRequest "str=ab" = None /\
  (400 <= code (bindHandler_Invoke bindFailureStatus RpcService_Echo "str=ab") < 500)%Z /\
  body (bindHandler_Invoke bindFailureStatus RpcService_Echo "str=ab") = ValidationError /\
  invocations (bindHandler_Invoke bindFailureStatus RpcService_Echo "str=ab") = [] /\
  (forall fn rawQuery,
     bindEchoRequest rawQuery = None ->
     invocations (bindHandler_Invoke bindFailureStatus fn rawQuery) = [] /\
     (400 <= code (bindHandler_Invoke bindFailureStatus fn rawQuery) < 500)%Z) /\
  (forall fn rawQuery request,
     In request (invocations (bindHandler_Invoke bindFailureStatus fn rawQuery)) ->
     bindEchoRequest rawQuery = Some request /\ String.length (Str request) = 4).
Proof.
  intro H.
  split; [reflexivity|]. split; [reflexivity|]. split; [reflexivity|].
  split; [exact H|]. split; [reflexivity|]. split; [reflexivity|]. split.
  - intros fn rawQuery E. unfold bindHandler_Invoke. rewrite E. simpl. auto.
  - intros fn rawQuery request. unfold bindHandler_Invoke.
    destruct (bindEchoRequest rawQuery) as [request'|] eqn:E; simpl; [|tauto].
    intros [Heq|[]]. subst request'. split; [reflexivity|].
    eapply bound_request_is_valid. exact E.
Qed.

Lemma Echo_binding_witness :
  bindHandler_Invoke 400 RpcService_Echo "str=abcd"
    = mkReply StatusOK (JSON (mkEchoResponse "echo abcd")) [mkEchoRequest "abcd"] /\
  code (bindHandler_Invoke 400 RpcService_Echo "str=ab") = 400%Z /\
  invocations (bindHandler_Invoke 400 RpcService_Echo "str=ab") = [].
Proof.
  assert (H : (400 <= 400 < 500)%Z) by lia.
  destruct (Echo_request_is_validated_before_the_call 400 H)
    as (_ & H2 & _ & _ & _ & H6 & _).
  split; [exact H2|]. split; [reflexivity | exact H6].
Defined.

(* ================================================================= *)
(** * Further properties of the code *)

(** ** The logger filter, and its place relative to the recovery filter *)

(** X1: the logger filter logs the cost after [chain.Next] returns, with no
    [defer]: when the rest of the chain panics with a value [v] other than
    nil it logs nothing and the panic passes it.  So the cost of a request
    that panics with such a value is logged when the recovery filter is the
    logger's continuation (logger registered before recovery), and is not
    when the logger is the recovery filter's continuation. *)
Theorem logger_logs_a_panicking_request_only_ahead_of_recovery
    (callNext : unit -> World -> option (World * Completion))
    (w w1 : World) (v : PanicValue) :
  v <> PNil ->
  callNext tt w = Some (w1, Some v) ->
  let recovered :=
    perform (Status StatusInternalServerError)
            (perform (LogError [AString "[PANIC RECOVER] "; APanic v]) w1) in
  exec callNext loggerFilter_Invoke w = Some (w1, Some v) /\
  exec (fun _ => exec callNext recoveryFilter_Invoke) loggerFilter_Invoke w
    = Some (perform (LogInfo [AString "cost: "; ADuration]) recovered, None) /\
  exec (fun _ => exec callNext loggerFilter_Invoke) recoveryFilter_Invoke w
    = Some (recovered, None).
Proof.
  intros Hv E recovered. unfold loggerFilter_Invoke, recoveryFilter_Invoke.
  cbn [exec]. rewrite E. subst recovered.
  destruct v; [contradiction| | | |]; cbn [exec recover]; repeat split.
Qed.

Lemma logger_panicking_witness :
  let callNext := fun (_ : unit) (w : World) => Some (w, Some (PString "boom")) in
  let recovered :=
    perform (Status StatusInternalServerError)
            (perform (LogError [AString "[PANIC RECOVER] "; APanic (PString "boom")]) idle) in
  exec callNext loggerFilter_Invoke idle = Some (idle, Some (PString "boom")) /\
  exec (fun _ => exec callNext recoveryFilter_Invoke) loggerFilter_Invoke idle
    = Some (perform (LogInfo [AString "cost: "; ADuration]) recovered, None) /\
  exec (fun _ => exec callNext loggerFilter_Invoke) recoveryFilter_Invoke idle
    = Some (recovered, None).
Proof.
  apply (logger_logs_a_panicking_request_only_ahead_of_recovery
           (fun _ w => Some (w, Some (PString "boom"))) idle idle (PString "boom")).
  - discriminate.
  - reflexivity.
Defined.

(** X2: when the rest of the chain returns normally in [w1], the recovery
    filter changes nothing, and the logger filter appends one INFO entry,
    the cost, and nothing else; the two filters one behind the other, in
    either order, leave [w1] with that one entry. *)
Theorem default_filters_on_a_normal_return
    (callNext : unit -> World -> option (World * Completion)) (w w1 : World) :
  callNext tt w = Some (w1, None) ->
  let logged := perform (LogInfo [AString "cost: "; ADuration]) w1 in
  exec callNext recoveryFilter_Invoke w = Some (w1, None) /\
  exec callNext loggerFilter_Invoke w = Some (logged, None) /\
  exec (fun _ => exec callNext recoveryFilter_Invoke) loggerFilter_Invoke w
    = Some (logged, None) /\
  exec (fun _ => exec callNext loggerFilter_Invoke) recoveryFilter_Invoke w
    = Some (logged, None) /\
  logs logged = logs w1 ++ [mkEntry INFO [AString "cost: "; ADuration]] /\
  status logged = status w1.
Proof.
  intros E logged. unfold loggerFilter_Invoke, recoveryFilter_Invoke.
  cbn [exec]. rewrite E. cbn [exec recover]. repeat split.
Qed.

Lemma default_filters_normal_witness :
  let callNext := fun (_ : unit) (w : World) => Some (perform (Status 200) w, None) in
  let logged := perform (LogInfo [AString "cost: "; ADuration]) (perform (Status 200) idle) in
  exec callNext recoveryFilter_Invoke idle = Some (perform (Status 200) idle, None) /\
  exec callNext loggerFilter_Invoke idle = Some (logged, None) /\
  exec (fun _ => exec callNext recoveryFilter_Invoke) loggerFilter_Invoke idle
    = Some (logged, None) /\
  exec (fun _ => exec callNext loggerFilter_Invoke) recoveryFilter_Invoke idle
    = Some (logged, None) /\
  logs logged = logs (perform (Status 200) idle) ++ [mkEntry INFO [AString "cost: "; ADuration]] /\
  status logged = status (perform (Status 200) idle).
Proof.
  apply (default_filters_on_a_normal_return
           (fun _ w => Some (perform (Status 200) w, None)) idle (perform (Status 200) idle)).
  reflexivity.
Defined.

(** ** The filters of package testcases *)

(** X3: [NumberFilter] pushes its number on its list before the rest of the
    chain and, by [defer], after it, whether the rest returns or panics, and
    hands its caller the completion of the rest unchanged. *)
Theorem NumberFilter_brackets_the_rest_of_the_chain
    (callNext : unit -> World -> option (World * Completion))
    (n : Z) (l : nat) (w w1 : World) (r : Completion) :
  let before := performAll [LogInfo [AString "before "; AInt n]; PushBack l n] w in
  let after := performAll [LogInfo [AString "after "; AInt n]; PushBack l n] w1 in
  callNext tt before = Some (w1, r) ->
  exec callNext (testcases.NumberFilter_Invoke n l) w = Some (after, r) /\
  heap before l = heap w l ++ [n] /\
  heap after l = heap w1 l ++ [n] /\
  logs before = logs w ++ [mkEntry INFO [AString "before "; AInt n]] /\
  logs after = logs w1 ++ [mkEntry INFO [AString "after "; AInt n]].
Proof.
  intros before after E. split.
  - unfold testcases.NumberFilter_Invoke. cbn [exec].
    change (perform (PushBack l n) (perform (LogInfo [AString "before "; AInt n]) w))
      with before.
    rewrite E. destruct r as [v|]; reflexivity.
  - subst before after. cbn. rewrite Nat.eqb_refl. repeat split.
Qed.

Lemma NumberFilter_witness :
  let callNext := fun (_ : unit) (w : World) => Some (w, Some (PString "boom")) in
  let before := performAll [LogInfo [AString "before "; AInt 7]; PushBack 0 7] idle in
  let after := performAll [LogInfo [AString "after "; AInt 7]; PushBack 0 7] before in
  exec callNext (testcases.NumberFilter_Invoke 7 0) idle = Some (after, Some (PString "boom")) /\
  heap before 0 = heap idle 0 ++ [7%Z] /\
  heap after 0 = heap before 0 ++ [7%Z] /\
  logs before = logs idle ++ [mkEntry INFO [AString "before "; AInt 7]] /\
  logs after = logs before ++ [mkEntry INFO [AString "after "; AInt 7]].
Proof.
  apply (NumberFilter_brackets_the_rest_of_the_chain
           (fun _ w => Some (w, Some (PString "boom"))) 7 0 idle
           (performAll [LogInfo [AString "before "; AInt 7]; PushBack 0 7] idle)
           (Some (PString "boom"))).
  reflexivity.
Defined.

(** X4: [GlobalInterruptFilter] interrupts the route [/global_interrupt] and
    no other: on that path it logs one entry and returns without consulting
    the rest of the chain; on any other path it ends exactly as the rest of
    the chain does, in the same state, panic included. *)
Theorem GlobalInterruptFilter_interrupts_one_route
    (callNext other : unit -> World -> option (World * Completion))
    (path : string) (w : World) :
  exec callNext (testcasesServices.GlobalInterruptFilter_Invoke path) w
  = (if String.eqb path "/global_interrupt"
     then Some (perform (LogInfo [AString "global interrupt"]) w, None)
     else callNext tt w) /\
  exec callNext (testcasesServices.GlobalInterruptFilter_Invoke "/global_interrupt") w
  = exec other (testcasesServices.GlobalInterruptFilter_Invoke "/global_interrupt") w /\
  nextFree (testcasesServices.GlobalInterruptFilter_Invoke "/global_interrupt") /\
  (String.eqb path "/global_interrupt" = false ->
   reachesNextOnce (testcasesServices.GlobalInterruptFilter_Invoke path)).
Proof.
  unfold testcasesServices.GlobalInterruptFilter_Invoke. split; [|split; [|split]].
  - destruct (String.eqb path "/global_interrupt"); cbn [exec]; [reflexivity|].
    destruct (callNext tt w) as [[w1 [v|]]|]; reflexivity.
  - reflexivity.
  - exact I.
  - intro H. rewrite H. exact I.
Qed.

(** ** Handlers *)

(** X5: for a receiver that has the method, [METHOD(receiver, name)] returns
    a handler whose [Invoke] does what [FUNC] of that method does. *)
Theorem METHOD_binds_like_FUNC (o : Object) (methodName : string) (f : HandlerFunc) :
  lookupMethod (methods o) methodName = Some (MHandlerFunc f) ->
  exists h,
    METHOD (Some o) methodName = Ok h /\
    forall w, Handler_Invoke h w = Handler_Invoke (FUNC f) w.
Proof.
  intro H. unfold METHOD, MethodByName. rewrite H. cbn.
  eexists. split; [reflexivity|]. intro w. reflexivity.
Qed.

Lemma METHOD_binds_witness :
  exists h,
    METHOD (Some testcases.Service) "Panic" = Ok h /\
    forall w, Handler_Invoke h w = Handler_Invoke (FUNC testcases.Service_Panic) w.
Proof.
  apply (METHOD_binds_like_FUNC testcases.Service "Panic" testcases.Service_Panic).
  reflexivity.
Defined.

(** ** The parts of a container *)

Section MoreContainerFacts.

Import ContainerVocabulary.

Variable Mapper : Type.
Variable WebMapping : Type.
Variable NewDefaultWebMapping : WebMapping.
Variable WebMapping_AddMapper : WebMapping -> Mapper -> WebMapping.
Variable WebMapping_Mappers : WebMapping -> list Mapper.

Local Abbreviation Container := (BaseWebContainer WebMapping).
Local Abbreviation New := (NewBaseWebContainer NewDefaultWebMapping).
Local Abbreviation runOps := (run WebMapping_AddMapper WebMapping_Mappers).
Local Abbreviation stepOp := (step WebMapping_AddMapper WebMapping_Mappers).
Local Abbreviation addRouter := (AddRouter WebMapping_AddMapper WebMapping_Mappers).
Local Abbreviation addMapper := (AddMapper WebMapping_AddMapper).

(** X6: [AddFilter] appends, in the order of the calls: two calls are one
    call with the two lists joined, a call with no filter changes nothing, a
    new container has no filter, and [ResetFilters] forgets every filter
    added before it. *)
Theorem AddFilter_appends (c : Container) (cfg : ContainerConfig) (a b fs : list Filter) :
  GetFilters (New cfg) = [] /\
  GetFilters (AddFilter c a) = GetFilters c ++ a /\
  AddFilter (AddFilter c a) b = AddFilter c (a ++ b) /\
  AddFilter c [] = c /\
  GetFilters (ResetFilters (AddFilter c a) fs) = fs /\
  ResetFilters (AddFilter c a) fs = ResetFilters c fs /\
  GetFilters (AddFilter (ResetFilters c fs) a) = fs ++ a.
Proof.
  destruct c as [m cf f sw lg rc]. unfold AddFilter, ResetFilters, GetFilters. simpl.
  repeat split.
  - now rewrite app_assoc.
  - now rewrite app_nil_r.
Qed.

Lemma AddRouter_routes (c : Container) (router : Router WebMapping) :
  webMapping (addRouter c router)
  = fold_left WebMapping_AddMapper (WebMapping_Mappers (mapping router)) (webMapping c).
Proof.
  unfold AddRouter. generalize (WebMapping_Mappers (mapping router)). intro ms.
  revert c. induction ms as [|m ms IH]; intro c; simpl; [reflexivity|].
  rewrite IH. reflexivity.
Qed.

Lemma step_filters (c c' : Container) (o : Op Mapper WebMapping) :
  filters c = filters c' ->
  filters (stepOp c o)
  = if writesFilters o then filters (stepOp c' o) else filters c'.
Proof.
  intro H. destruct o; simpl; try congruence.
  rewrite <- H. apply (AddRouter_frame Mapper WebMapping WebMapping_AddMapper WebMapping_Mappers).
Qed.

Lemma step_routes (c c' : Container) (o : Op Mapper WebMapping) :
  webMapping c = webMapping c' ->
  webMapping (stepOp c o)
  = if writesRoutes o then webMapping (stepOp c' o) else webMapping c'.
Proof.
  intro H. destruct o; simpl; try congruence.
  rewrite !AddRouter_routes. congruence.
Qed.

Lemma step_swagger (c c' : Container) (o : Op Mapper WebMapping) :
  enableSwg c = enableSwg c' ->
  enableSwg (stepOp c o)
  = if writesSwagger o then enableSwg (stepOp c' o) else enableSwg c'.
Proof.
  intro H. destruct o; simpl; try congruence.
  rewrite <- H. apply (AddRouter_frame Mapper WebMapping WebMapping_AddMapper WebMapping_Mappers).
Qed.

Lemma run_filters_agree (ops : list (Op Mapper WebMapping)) :
  forall c1 c2 : Container,
    filters c1 = filters c2 ->
    filters (fold_left stepOp ops c1)
    = filters (fold_left stepOp (filter (@writesFilters _ _) ops) c2).
Proof.
  induction ops as [|o ops' IH]; intros c1 c2 H; simpl; [exact H|].
  pose proof (step_filters c1 c2 o H) as S.
  destruct (writesFilters o); simpl; apply IH; exact S.
Qed.

Lemma run_routes_agree (ops : list (Op Mapper WebMapping)) :
  forall c1 c2 : Container,
    webMapping c1 = webMapping c2 ->
    webMapping (fold_left stepOp ops c1)
    = webMapping (fold_left stepOp (filter (@writesRoutes _ _) ops) c2).
Proof.
  induction ops as [|o ops' IH]; intros c1 c2 H; simpl; [exact H|].
  pose proof (step_routes c1 c2 o H) as S.
  destruct (writesRoutes o); simpl; apply IH; exact S.
Qed.

Lemma run_swagger_agree (ops : list (Op Mapper WebMapping)) :
  forall c1 c2 : Container,
    enableSwg c1 = enableSwg c2 ->
    enableSwg (fold_left stepOp ops c1)
    = enableSwg (fold_left stepOp (filter (@writesSwagger _ _) ops) c2).
Proof.
  induction ops as [|o ops' IH]; intros c1 c2 H; simpl; [exact H|].
  pose proof (step_swagger c1 c2 o H) as S.
  destruct (writesSwagger o); simpl; apply IH; exact S.
Qed.

(** X7: the filter list, the route table and the Swagger flag of a container
    are independent: after any run of calls, each is what the calls that
    write it, alone and in their order, would have left. *)
Theorem container_parts_are_independent (c : Container) (ops : list (Op Mapper WebMapping)) :
  GetFilters (runOps c ops) = GetFilters (runOps c (filter (@writesFilters _ _) ops)) /\
  webMapping (runOps c ops) = webMapping (runOps c (filter (@writesRoutes _ _) ops)) /\
  EnableSwagger (runOps c ops)
    = EnableSwagger (runOps c (filter (@writesSwagger _ _) ops)).
Proof.
  unfold GetFilters, EnableSwagger, run.
  split; [apply run_filters_agree; reflexivity|].
  split; [apply run_routes_agree; reflexivity | apply run_swagger_agree; reflexivity].
Qed.

Lemma run_keeps_swagger (ops : list (Op Mapper WebMapping)) :
  forall c : Container,
    existsb (@writesSwagger _ _) ops = false ->
    enableSwg (runOps c ops) = enableSwg c.
Proof.
  induction ops as [|o ops IH]; intros c H; [reflexivity|].
  simpl in H. apply orb_false_iff in H. destruct H as [Ho Hops].
  unfold run in *. simpl. rewrite (IH _ Hops).
  pose proof (step_swagger c c o eq_refl) as S. rewrite Ho in S. exact S.
Qed.

(** X8: the last [SetEnableSwagger] decides: after a run of calls in which
    [SetEnableSwagger(enable)] is followed by no other call of
    [SetEnableSwagger], [EnableSwagger()] returns [enable], and the route
    table is the one the calls [AddMapper] and [AddRouter] built. *)
Theorem last_SetEnableSwagger_decides (c : Container) (enable : bool)
    (ops1 ops2 : list (Op Mapper WebMapping)) :
  existsb (@writesSwagger _ _) ops2 = false ->
  EnableSwagger (runOps c (ops1 ++ OpSetEnableSwagger enable :: ops2)) = enable /\
  webMapping (runOps c (ops1 ++ OpSetEnableSwagger enable :: ops2))
    = webMapping (runOps c (ops1 ++ ops2)).
Proof.
  intro H. split.
  - unfold EnableSwagger, run. rewrite fold_left_app. simpl.
    change (enableSwg (runOps (SetEnableSwagger (fold_left stepOp ops1 c) enable) ops2) = enable).
    now rewrite (run_keeps_swagger ops2 _ H).
  - unfold run.
    rewrite (run_routes_agree (ops1 ++ OpSetEnableSwagger enable :: ops2) c c eq_refl).
    rewrite (run_routes_agree (ops1 ++ ops2) c c eq_refl).
    rewrite !filter_app. reflexivity.
Qed.

End MoreContainerFacts.

Lemma last_SetEnableSwagger_witness :
  EnableSwagger
    (run (fun (m : list string) x => m ++ [x]) (fun m => m)
         (NewBaseWebContainer [] (mkConfig "" 8080 false "" "" 0 0))
         ([OpSetEnableSwagger true; OpAddMapper "/a"]
          ++ OpSetEnableSwagger false :: [OpAddFilter []; OpAddMapper "/b"])) = false /\
  webMapping
    (run (fun (m : list string) x => m ++ [x]) (fun m => m)
         (NewBaseWebContainer [] (mkConfig "" 8080 false "" "" 0 0))
         ([OpSetEnableSwagger true; OpAddMapper "/a"]
          ++ OpSetEnableSwagger false :: [OpAddFilter []; OpAddMapper "/b"]))
  = webMapping
      (run (fun (m : list string) x => m ++ [x]) (fun m => m)
           (NewBaseWebContainer [] (mkConfig "" 8080 false "" "" 0 0))
           ([OpSetEnableSwagger true; OpAddMapper "/a"] ++ [OpAddFilter []; OpAddMapper "/b"])).
Proof.
  apply (last_SetEnableSwagger_decides string (list string)
           (fun m x => m ++ [x]) (fun m => m)
           (NewBaseWebContainer [] (mkConfig "" 8080 false "" "" 0 0)) false
           [OpSetEnableSwagger true; OpAddMapper "/a"]
           [OpAddFilter []; OpAddMapper "/b"]).
  reflexivity.
Defined.

(** ** Before the start *)

Section PreStartFacts.

Import ContainerVocabulary.

Variable Mapper : Type.
Variable WebMapping : Type.
Variable WebMapping_AddMapper : WebMapping -> Mapper -> WebMapping.
Variable WebMapping_Mappers : WebMapping -> list Mapper.
Variable WebMapping_HandleGet : WebMapping -> string -> Handler -> WebMapping.
Variable WebMapping_GetMapping : WebMapping -> string -> HandlerFunc -> WebMapping.
Variable Operation : Type.
Variable Doc : Type.
Variable Mapper_swagger : Mapper -> option Operation.
Variable Mapper_Path : Mapper -> string.
Variable Mapper_Method : Mapper -> Z.
Variable parseBind : Operation -> Operation * option string.
Variable Doc_AddPath : Doc -> string -> Z -> Operation -> Doc.
Variable swaggerUI : HandlerFunc.
Variable ReDoc : HandlerFunc.

Local Abbreviation preStart :=
  (SpringWebStartup.PreStart WebMapping_Mappers WebMapping_HandleGet WebMapping_GetMapping
     Mapper_swagger Mapper_Path Mapper_Method parseBind Doc_AddPath swaggerUI ReDoc).
Local Abbreviation register :=
  (SpringWebStartup.registerOperations Mapper_swagger Mapper_Path Mapper_Method
     parseBind Doc_AddPath).

(** X9: [PreStart] writes nothing of a container but its route table, and
    that only when it returns: when it panics the container is as it was,
    and when Swagger is disabled it returns with the container and the
    document as they were.  When it returns with Swagger enabled the route
    table has gained [/swagger/*] and then [/redoc]. *)
Theorem PreStart_writes_only_the_route_table (c : BaseWebContainer WebMapping) (doc : Doc) :
  let result := preStart c doc in
  let c' := fst (fst result) in
  config c' = config c /\ filters c' = filters c /\ enableSwg c' = enableSwg c /\
  loggerFilter c' = loggerFilter c /\ recoveryFilter c' = recoveryFilter c /\
  (snd result <> None -> c' = c) /\
  (enableSwg c = false -> result = (c, doc, None)) /\
  (enableSwg c = true -> snd result = None ->
   webMapping c'
   = WebMapping_GetMapping
       (WebMapping_HandleGet (webMapping c) "/swagger/*" (HTTP swaggerUI))
       "/redoc" ReDoc).
Proof.
  unfold SpringWebStartup.PreStart.
  destruct (enableSwg c) eqn:Hs; cbv zeta.
  - destruct (SpringWebStartup.registerOperations _ _ _ _ _ _ doc) as [doc' [v|]]; simpl;
      repeat split; auto; try discriminate; try congruence.
  - simpl. repeat split; auto; try discriminate; try congruence.
Qed.

Lemma register_app (ms1 ms2 : list Mapper) :
  forall doc,
    register (ms1 ++ ms2) doc
    = match register ms1 doc with
      | (doc', Some v) => (doc', Some v)
      | (doc', None) => register ms2 doc'
      end.
Proof.
  induction ms1 as [|m ms1 IH]; intro doc; simpl; [reflexivity|].
  destruct (Mapper_swagger m) as [op|]; [|apply IH].
  destruct (parseBind op) as [op' [err|]]; [reflexivity | apply IH].
Qed.

(** X10: with Swagger enabled, the first mapper, in the order of
    [Mappers()], whose operation fails [parseBind] makes [PreStart] panic
    with that error: the container is left as it was, without the routes
    [/swagger/*] and [/redoc], and the document holds the operations of the
    mappers before that one, and of no mapper after it. *)
Theorem PreStart_panics_at_the_first_bad_operation
    (c : BaseWebContainer WebMapping) (doc : Doc)
    (ms1 ms2 : list Mapper) (m : Mapper) (op : Operation) (err : string) :
  enableSwg c = true ->
  WebMapping_Mappers (webMapping c) = ms1 ++ m :: ms2 ->
  snd (register ms1 doc) = None ->
  Mapper_swagger m = Some op ->
  snd (parseBind op) = Some err ->
  preStart c doc = (c, fst (register ms1 doc), Some (PError err)).
Proof.
  intros Hs Hms H1 Hop Herr. unfold SpringWebStartup.PreStart.
  rewrite Hs, Hms, register_app.
  destruct (register ms1 doc) as [doc1 r1]. simpl in H1. subst r1.
  simpl. rewrite Hop. destruct (parseBind op) as [op' e]. simpl in Herr. subst e.
  reflexivity.
Qed.

(** X11: when the last call of [SetEnableSwagger] before the start passed
    false, [PreStart] returns and registers nothing: no route, no
    operation. *)
Theorem PreStart_after_Swagger_was_disabled (c : BaseWebContainer WebMapping) (doc : Doc)
    (ops1 ops2 : list (Op Mapper WebMapping)) :
  existsb (@writesSwagger _ _) ops2 = false ->
  let started :=
    run WebMapping_AddMapper WebMapping_Mappers c (ops1 ++ OpSetEnableSwagger false :: ops2) in
  preStart started doc = (started, doc, None).
Proof.
  intros H started. unfold SpringWebStartup.PreStart.
  replace (enableSwg started) with false; [reflexivity|].
  subst started. unfold run. rewrite fold_left_app. simpl.
  symmetry.
  exact (run_keeps_swagger Mapper WebMapping WebMapping_AddMapper WebMapping_Mappers ops2
           (SetEnableSwagger
              (fold_left (step WebMapping_AddMapper WebMapping_Mappers) ops1 c) false) H).
Qed.

End PreStartFacts.

(** A route table that is the list of its routes, a mapper that is a path
    with, possibly, the number of its operation, an operation that parses
    unless it is 0, and a document that is the list of its paths. *)
Lemma PreStart_panic_witness :
  let c := mkContainer [("/a", Some 1); ("/b", None); ("/c", Some 0); ("/d", Some 2)]
             (mkConfig "" 8080 false "" "" 0 0) [] true None None in
  SpringWebStartup.PreStart (fun m : list (string * option nat) => m)
    (fun m path _ => m ++ [(path, None)]) (fun m path _ => m ++ [(path, None)])
    (fun mapper => snd mapper) (fun mapper => fst mapper) (fun _ => 1%Z)
    (fun op => (op, if Nat.eqb op 0 then Some "bad tag" else None))
    (fun (doc : list (string * nat)) path _ op => doc ++ [(path, op)])
    Return Return c []
  = (c, [("/a", 1)], Some (PError "bad tag")).
Proof.
  exact (PreStart_panics_at_the_first_bad_operation
           (string * option nat) (list (string * option nat)) (fun m => m)
           (fun m path _ => m ++ [(path, None)]) (fun m path _ => m ++ [(path, None)])
           nat (list (string * nat))
           (fun mapper => snd mapper) (fun mapper => fst mapper) (fun _ => 1%Z)
           (fun op => (op, if Nat.eqb op 0 then Some "bad tag" else None))
           (fun doc path _ op => doc ++ [(path, op)])
           Return Return
           (mkContainer [("/a", Some 1); ("/b", None); ("/c", Some 0); ("/d", Some 2)]
              (mkConfig "" 8080 false "" "" 0 0) [] true None None)
           [] [("/a", Some 1); ("/b", None)] [("/d", Some 2)] ("/c", Some 0) 0 "bad tag"
           eq_refl eq_refl eq_refl eq_refl eq_refl).
Defined.

Lemma PreStart_disabled_witness :
  let started :=
    run (fun (m : list string) x => m ++ [x]) (fun m => m)
        (NewBaseWebContainer [] (mkConfig "" 8080 false "" "" 0 0))
        ([OpAddMapper "/a"] ++ OpSetEnableSwagger false :: [OpAddMapper "/b"]) in
  SpringWebStartup.PreStart (fun m : list string => m)
    (fun m path _ => m ++ [path]) (fun m path _ => m ++ [path])
    (fun _ => Some 0) (fun mapper => mapper) (fun _ => 1%Z)
    (fun op : nat => (op, Some "bad tag"))
    (fun (doc : list string) path _ _ => doc ++ [path])
    Return Return started []
  = (started, [], None).
Proof.
  exact (PreStart_after_Swagger_was_disabled string (list string)
           (fun m x => m ++ [x]) (fun m => m)
           (fun m path _ => m ++ [path]) (fun m path _ => m ++ [path])
           nat (list string)
           (fun _ => Some 0) (fun mapper => mapper) (fun _ => 1%Z)
           (fun op => (op, Some "bad tag"))
           (fun doc path _ _ => doc ++ [path])
           Return Return
           (NewBaseWebContainer [] (mkConfig "" 8080 false "" "" 0 0)) []
           [OpAddMapper "/a"] [OpAddMapper "/b"] eq_refl).
Defined.

(** ** The scheme of a request *)


(** ** More on the path parameters *)

Lemma length_withoutFirstByte (v : string) :
  String.length (withoutFirstByte v) = String.length v - 1.
Proof. destruct v; simpl; lia. Qed.

Lemma ByName_missing (params : Params) (name : string) :
  (forall e, In e params -> Key e <> name) -> ByName params name = "".
Proof.
  induction params as [|p params IH]; intro H; simpl; [reflexivity|].
  destruct (String.eqb (Key p) name) eqn:E.
  - apply String.eqb_eq in E. exfalso. apply (H p); [now left | exact E].
  - apply IH. intros e He. apply H. now right.
Qed.

(** X13: the value [PathParam] returns is one byte shorter than the value
    the engine stores under the name (the wildcard name for ["*"]); it is
    empty exactly when the stored value has at most one byte, and so for a
    name the route does not have. *)
Theorem PathParam_is_one_byte_shorter (ctx : Context) (name : string) :
  let stored :=
    ByName (ginParams ctx) (if String.eqb name "*" then wildCardName ctx else name) in
  String.length (PathParam ctx name) = String.length stored - 1 /\
  (PathParam ctx name = "" <-> String.length stored <= 1) /\
  ((forall e, In e (ginParams ctx) ->
      Key e <> (if String.eqb name "*" then wildCardName ctx else name)) ->
   PathParam ctx name = "").
Proof.
  intro stored. rewrite PathParam_spec. fold stored. split; [|split].
  - apply length_withoutFirstByte.
  - destruct stored as [|c [|c' rest]]; simpl; split; intro H;
      try reflexivity; try lia; try discriminate.
  - intro H. subst stored. now rewrite (ByName_missing _ _ H).
Qed.

Lemma ByName_NoDup (params : Params) :
  NoDup (map Key params) ->
  forall i e, nth_error params i = Some e -> ByName params (Key e) = Value e.
Proof.
  induction params as [|p params IH]; intros ND i e Hnth.
  - destruct i; discriminate.
  - inversion ND as [|k ks Hnotin ND']; subst.
    destruct i as [|i]; simpl in *.
    + inversion Hnth; subst. now rewrite String.eqb_refl.
    + destruct (String.eqb (Key p) (Key e)) eqn:E.
      * apply String.eqb_eq in E. exfalso. apply Hnotin. rewrite E.
        apply in_map. eapply nth_error_In. exact Hnth.
      * eapply IH; eassumption.
Qed.

(** X14: on a fresh context, [PathParamNames] and [PathParamValues] list one
    entry for each parameter of the engine, in the engine's order: the name
    at a position is the key of the engine's parameter at that position
    (["*"] for the wildcard name), the value at a position is that
    parameter's value without its first byte.  When the engine's keys are
    distinct and none is ["*"] unless it is the wildcard name, the value
    [PathParam] returns for the name listed at a position is the value listed
    at that position. *)
Theorem names_and_values_line_up (path wild : string) (params : Params) :
  let ctx := NewContext path wild params in
  fst (PathParamNames ctx) = map (fun e => canonicalName wild (Key e)) params /\
  fst (PathParamValues ctx) = map (fun e => withoutFirstByte (Value e)) params /\
  length (fst (PathParamNames ctx)) = length params /\
  length (fst (PathParamValues ctx)) = length params /\
  (NoDup (map Key params) ->
   (forall e, In e params -> Key e = "*" -> wild = "*") ->
   forall i name value,
     nth_error (fst (PathParamNames ctx)) i = Some name ->
     nth_error (fst (PathParamValues ctx)) i = Some value ->
     PathParam ctx name = value).
Proof.
  intro ctx. subst ctx.
  rewrite PathParamNames_fresh, PathParamValues_fresh. cbn [fst].
  rewrite !length_map.
  split; [reflexivity|]. split; [reflexivity|]. split; [reflexivity|].
  split; [reflexivity|].
  intros ND Hstar i name value Hname Hvalue.
  rewrite nth_error_map in Hname, Hvalue.
  destruct (nth_error params i) as [e|] eqn:Hnth; [|discriminate].
  simpl in Hname, Hvalue. inversion Hname; inversion Hvalue; subst. clear Hname Hvalue.
  rewrite PathParam_spec. cbn [ginParams wildCardName NewContext]. f_equal.
  unfold canonicalName.
  destruct (String.eqb (Key e) wild) eqn:Ew.
  - apply String.eqb_eq in Ew. simpl. rewrite <- Ew. eapply ByName_NoDup; eassumption.
  - destruct (String.eqb (Key e) "*") eqn:Es.
    + apply String.eqb_eq in Es. apply String.eqb_neq in Ew. exfalso. apply Ew.
      rewrite Es. symmetry. apply (Hstar e); [eapply nth_error_In; eassumption | exact Es].
    + eapply ByName_NoDup; eassumption.
Qed.

Lemma names_and_values_witness :
  let ctx := NewContext "/users/:id/files/*" "rest"
               [mkParam "id" "/7"; mkParam "rest" "/sub/dir"] in
  fst (PathParamNames ctx) = ["id"; "*"] /\
  fst (PathParamValues ctx) = ["7"; "sub/dir"] /\
  PathParam ctx "id" = "7" /\
  PathParam ctx "*" = "sub/dir".
Proof.
  destruct (names_and_values_line_up "/users/:id/files/*" "rest"
              [mkParam "id" "/7"; mkParam "rest" "/sub/dir"])
    as (Hnames & Hvalues & _ & _ & Hround).
  assert (ND : NoDup (map Key [mkParam "id" "/7"; mkParam "rest" "/sub/dir"])).
  { repeat constructor; simpl; intuition discriminate. }
  assert (Hstar : forall e, In e [mkParam "id" "/7"; mkParam "rest" "/sub/dir"] ->
                            Key e = "*" -> "rest" = "*").
  { intros e [H|[H|[]]] Hk; subst; discriminate. }
  split; [exact Hnames|]. split; [exact Hvalues|]. split.
  - apply (Hround ND Hstar 0); reflexivity.
  - apply (Hround ND Hstar 1); reflexivity.
Defined.

(** X15: the caches of [PathParamNames] and [PathParamValues] change no
    answer: a second call returns what the first returned, and a call of one
    changes neither what the other returns nor what [PathParam] returns. *)
Theorem path_parameter_caches_change_no_answer (ctx : Context) (name : string) :
  fst (PathParamNames (snd (PathParamNames ctx))) = fst (PathParamNames ctx) /\
  fst (PathParamValues (snd (PathParamValues ctx))) = fst (PathParamValues ctx) /\
  fst (PathParamValues (snd (PathParamNames ctx))) = fst (PathParamValues ctx) /\
  fst (PathParamNames (snd (PathParamValues ctx))) = fst (PathParamNames ctx) /\
  PathParam (snd (PathParamNames ctx)) name = PathParam ctx name /\
  PathParam (snd (PathParamValues ctx)) name = PathParam ctx name.
Proof.
  destruct ctx as [params path [names|] [values|] wild];
    unfold PathParamNames, PathParamValues, PathParam, Param_; simpl; repeat split.
Qed.

(** ** The keys of a request *)


(** ** Writing a response *)

Section WriterFacts.

Import SpringGinResponse.

Variable writeError : Calls -> string -> option string.
Variable HeaderContentType : string.
Variable MIMEApplicationJavaScriptCharsetUTF8 : string.
Variable xmlHeader : string.

Local Abbreviation jsonp :=
  (JSONPBlob writeError HeaderContentType MIMEApplicationJavaScriptCharsetUTF8).
Local Abbreviation xml :=
  (XMLBlob writeError HeaderContentType MIMEApplicationJavaScriptCharsetUTF8 xmlHeader).

Lemma written_app (c1 c2 : Calls) : written (c1 ++ c2) = written c1 ++ written c2.
Proof. unfold written. apply flat_map_app. Qed.

(** X17: [JSONPBlob] asks for the Content-Type and the status before it
    writes, then writes [callback(], the bytes and [);] and stops at the
    first write that fails: the writes made are the first [n] of the three,
    every write before the last made succeeded, and the call panics with the
    error of the last write made, if it failed.  When it returns, the three
    were written in this order. *)
Theorem JSONPBlob_stops_at_the_first_failed_write
    (calls : Calls) (code : Z) (callback b : string) :
  let ws := [(callback ++ "(")%string; b; ");"] in
  let base :=
    calls ++ [CHeader HeaderContentType MIMEApplicationJavaScriptCharsetUTF8; CStatus code] in
  let R := jsonp calls code callback b in
  exists n,
    1 <= n <= 3 /\
    fst R = base ++ map CWrite (firstn n ws) /\
    (forall i, i < n - 1 ->
       writeError (base ++ map CWrite (firstn i ws)) (nth i ws "") = None) /\
    snd R = match writeError (base ++ map CWrite (firstn (n - 1) ws)) (nth (n - 1) ws "") with
            | Some err => Some (PError err)
            | None => None
            end /\
    (snd R = None -> n = 3 /\ written (fst R) = written calls ++ ws).
Proof.
  intros ws base R. subst R.
  unfold JSONPBlob, jsonPBlob, Write, Header, Status_, PanicWhenError. cbv zeta.
  repeat rewrite <- app_assoc. cbn [app]. subst base ws.
  set (h := CHeader HeaderContentType MIMEApplicationJavaScriptCharsetUTF8).
  set (w1 := (callback ++ "(")%string).
  destruct (writeError (calls ++ [h; CStatus code]) w1) as [e1|] eqn:E1.
  - exists 1. cbn. rewrite app_nil_r, E1.
    split; [lia|]. split; [now rewrite <- app_assoc|]. split; [intros i Hi; lia|].
    split; [reflexivity | discriminate].
  - assert (P0 : forall i, i = 0 ->
              writeError ((calls ++ [h; CStatus code]) ++ map CWrite (firstn i [w1; b; ");"]))
                (nth i [w1; b; ");"] "") = None).
    { intros i ->. cbn. now rewrite app_nil_r. }
    destruct (writeError (calls ++ [h; CStatus code; CWrite w1]) b) as [e2|] eqn:E2.
    + exists 2. cbn. rewrite <- !app_assoc. cbn. rewrite E2.
      split; [lia|]. split; [reflexivity|]. split; [intros i Hi; apply P0; lia|].
      split; [reflexivity | discriminate].
    + assert (P1 : forall i, i < 2 ->
                writeError ((calls ++ [h; CStatus code]) ++ map CWrite (firstn i [w1; b; ");"]))
                  (nth i [w1; b; ");"] "") = None).
      { intros i Hi. assert (i = 0 \/ i = 1) as [->| ->] by lia.
        - now apply P0.
        - cbn. now rewrite <- app_assoc. }
      destruct (writeError (calls ++ [h; CStatus code; CWrite w1; CWrite b]) ");")
        as [e3|] eqn:E3.
      * exists 3. cbn. rewrite <- !app_assoc. cbn. rewrite E3.
        split; [lia|]. split; [reflexivity|]. split; [exact P1|].
        split; [reflexivity | discriminate].
      * exists 3. cbn. rewrite <- !app_assoc. cbn. rewrite E3.
        split; [lia|]. split; [reflexivity|]. split; [exact P1|].
        split; [reflexivity|]. intros _. split; [reflexivity|].
        change (written (calls ++ [h; CStatus code; CWrite w1; CWrite b; CWrite ");"])
                = written calls ++ [w1; b; ");"]).
        rewrite written_app. reflexivity.
Qed.

(** X18: [XMLBlob] asks for the Content-Type that [JSONPBlob] asks for, the
    JavaScript one, and the status, then writes the XML header and the bytes
    and stops at the first write that fails, panicking with its error; when
    it returns both were written in this order. *)
Theorem XMLBlob_sends_the_JavaScript_content_type
    (calls : Calls) (code : Z) (callback b : string) :
  let ws := [xmlHeader; b] in
  let base :=
    calls ++ [CHeader HeaderContentType MIMEApplicationJavaScriptCharsetUTF8; CStatus code] in
  let R := xml calls code b in
  nth_error (fst R) (length calls)
    = Some (CHeader HeaderContentType MIMEApplicationJavaScriptCharsetUTF8) /\
  nth_error (fst R) (length calls) = nth_error (fst (jsonp calls code callback b)) (length calls) /\
  exists n,
    1 <= n <= 2 /\
    fst R = base ++ map CWrite (firstn n ws) /\
    (forall i, i < n - 1 ->
       writeError (base ++ map CWrite (firstn i ws)) (nth i ws "") = None) /\
    snd R = match writeError (base ++ map CWrite (firstn (n - 1) ws)) (nth (n - 1) ws "") with
            | Some err => Some (PError err)
            | None => None
            end /\
    (snd R = None -> n = 2 /\ written (fst R) = written calls ++ ws).
Proof.
  intros ws base R.
  assert (Hx : exists rest, fst R = calls ++ CHeader HeaderContentType
                 MIMEApplicationJavaScriptCharsetUTF8 :: rest).
  { subst R. unfold XMLBlob, xmlBlob, Write, Header, Status_, PanicWhenError. cbv zeta.
    repeat rewrite <- app_assoc. cbn [app].
    destruct (writeError _ xmlHeader); [|destruct (writeError _ b)];
      cbn; repeat rewrite <- app_assoc; cbn; eexists; reflexivity. }
  assert (Hj : exists rest, fst (jsonp calls code callback b)
                 = calls ++ CHeader HeaderContentType
                     MIMEApplicationJavaScriptCharsetUTF8 :: rest).
  { unfold JSONPBlob, jsonPBlob, Write, Header, Status_, PanicWhenError. cbv zeta.
    repeat rewrite <- app_assoc. cbn [app].
    destruct (writeError _ (callback ++ "(")%string);
      [|destruct (writeError _ b); [|destruct (writeError _ ");")]];
      cbn; repeat rewrite <- app_assoc; cbn; eexists; reflexivity. }
  destruct Hx as (rx & Hx). destruct Hj as (rj & Hj).
  split; [|split].
  - rewrite Hx, nth_error_app2, Nat.sub_diag by lia. reflexivity.
  - rewrite Hx, Hj, !nth_error_app2, Nat.sub_diag by lia. reflexivity.
  - clear Hx Hj rx rj. subst R.
    unfold XMLBlob, xmlBlob, Write, Header, Status_, PanicWhenError. cbv zeta.
    repeat rewrite <- app_assoc. cbn [app]. subst base ws.
    set (h := CHeader HeaderContentType MIMEApplicationJavaScriptCharsetUTF8).
    destruct (writeError (calls ++ [h; CStatus code]) xmlHeader) as [e1|] eqn:E1.
    + exists 1. cbn. rewrite app_nil_r, E1.
      split; [lia|]. split; [now rewrite <- app_assoc|]. split; [intros i Hi; lia|].
      split; [reflexivity | discriminate].
    + assert (P0 : forall i, i < 1 ->
                writeError ((calls ++ [h; CStatus code]) ++ map CWrite (firstn i [xmlHeader; b]))
                  (nth i [xmlHeader; b] "") = None).
      { intros i Hi. assert (i = 0) as -> by lia. cbn. now rewrite app_nil_r. }
      destruct (writeError (calls ++ [h; CStatus code; CWrite xmlHeader]) b) as [e2|] eqn:E2.
      * exists 2. cbn. rewrite <- !app_assoc. cbn. rewrite E2.
        split; [lia|]. split; [reflexivity|]. split; [exact P0|].
        split; [reflexivity | discriminate].
      * exists 2. cbn. rewrite <- !app_assoc. cbn. rewrite E2.
        split; [lia|]. split; [reflexivity|]. split; [exact P0|].
        split; [reflexivity|]. intros _. split; [reflexivity|].
        change (written (calls ++ [h; CStatus code; CWrite xmlHeader; CWrite b])
                = written calls ++ [xmlHeader; b]).
        rewrite written_app. reflexivity.
Qed.

End WriterFacts.

(** ** The service of the tests *)

(** X19: after [Service.Set] bound a name and an age, [Service.Get] sends
    the name for the key [name] and the age for the key [age], with status
    200, and what it sent before for any other key; for a key the store does
    not hold, as for every key of a new service, it sends the empty string.
    [Get] leaves the store as it was, and so does a [Set] whose binding
    failed, which panics with the error of the binding and sends nothing. *)
Theorem Service_Set_then_Get (ToJson : string * string -> string)
    (s : testcasesServices.Service) (Name Age key err : string) :
  let set := testcasesServices.Service_Set ToJson s (inl (Name, Age)) in
  let failed := testcasesServices.Service_Set ToJson s (inr err) in
  let get := fun s key => testcasesServices.sent (testcasesServices.Service_Get s key) in
  get (testcasesServices.after set) "name" = testcasesServices.SentString 200 Name /\
  get (testcasesServices.after set) "age" = testcasesServices.SentString 200 Age /\
  (key <> "name" -> key <> "age" -> get (testcasesServices.after set) key = get s key) /\
  (testcasesServices.store s key = None -> get s key = testcasesServices.SentString 200 "") /\
  get testcasesServices.NewService key = testcasesServices.SentString 200 "" /\
  testcasesServices.after (testcasesServices.Service_Get s key) = s /\
  testcasesServices.panicked set = None /\
  testcasesServices.sent set = testcasesServices.SentNoContent 200 /\
  testcasesServices.after failed = s /\
  testcasesServices.panicked failed = Some (PError err) /\
  testcasesServices.sent failed = testcasesServices.SentNothing.
Proof.
  cbv zeta. unfold testcasesServices.Service_Get, testcasesServices.Service_Set,
    testcasesServices.index, testcasesServices.assign. simpl.
  repeat split.
  - intros H1 H2. apply String.eqb_neq in H1, H2. now rewrite H1, H2.
  - intro H. now rewrite H.
Qed.

(** ** The address of a container *)

Lemma append_cancel (s a b : string) : (s ++ a)%string = (s ++ b)%string -> a = b.
Proof.
  induction s as [|c s IH]; simpl; intro H; [exact H|].
  inversion H. auto.
Qed.

Lemma to_int_not_nil (n : Z) : Z.to_int n <> Decimal.Pos Decimal.Nil /\
                               Z.to_int n <> Decimal.Neg Decimal.Nil.
Proof.
  split; intro H; pose proof (DecimalZ.of_to n) as E; rewrite H in E; simpl in E;
    subst n; discriminate.
Qed.

Lemma decimal_injective (n m : Z) :
  SpringWebAddress.decimal n = SpringWebAddress.decimal m -> n = m.
Proof.
  unfold SpringWebAddress.decimal. intro H.
  apply DecimalZ.to_int_inj.
  destruct (to_int_not_nil n) as [Hn1 Hn2]. destruct (to_int_not_nil m) as [Hm1 Hm2].
  pose proof (DecimalString.NilZero.isi _ Hn1 Hn2) as En.
  pose proof (DecimalString.NilZero.isi _ Hm1 Hm2) as Em.
  rewrite H in En. rewrite En in Em. now inversion Em.
Qed.

Section AddressFacts.

Variable Mapper : Type.
Variable WebMapping : Type.
Variable NewDefaultWebMapping : WebMapping.
Variable WebMapping_AddMapper : WebMapping -> Mapper -> WebMapping.
Variable WebMapping_Mappers : WebMapping -> list Mapper.

(** X20: [Address()] is the IP, a colon and the port in decimal, as given at
    construction: no call on the container changes it; and two containers
    with the same IP have the same address only if they have the same
    port. *)
Theorem Address_is_fixed_and_tells_the_port (cfg : ContainerConfig)
    (ops : list (Op Mapper WebMapping)) (c1 c2 : BaseWebContainer WebMapping) :
  SpringWebAddress.Address
    (run WebMapping_AddMapper WebMapping_Mappers
         (NewBaseWebContainer NewDefaultWebMapping cfg) ops)
  = (IP cfg ++ ":" ++ SpringWebAddress.decimal (Port cfg))%string /\
  (IP (config c1) = IP (config c2) ->
   SpringWebAddress.Address c1 = SpringWebAddress.Address c2 ->
   Port (config c1) = Port (config c2)) /\
  SpringWebAddress.Address
    (NewBaseWebContainer NewDefaultWebMapping (mkConfig "127.0.0.1" 8080 false "" "" 0 0))
  = "127.0.0.1:8080" /\
  SpringWebAddress.Address
    (NewBaseWebContainer NewDefaultWebMapping (mkConfig "" 0 false "" "" 0 0))
  = ":0".
Proof.
  split; [|split; [|split; reflexivity]].
  - unfold SpringWebAddress.Address.
    assert (H : forall c0 : BaseWebContainer WebMapping,
              config (run WebMapping_AddMapper WebMapping_Mappers c0 ops) = config c0).
    { induction ops as [|o ops' IH]; intro c0; [reflexivity|].
      unfold run in *. simpl. rewrite IH. apply step_config. }
    rewrite H. reflexivity.
  - unfold SpringWebAddress.Address. intros Hip H. rewrite Hip in H.
    apply append_cancel in H. apply (append_cancel ":") in H.
    now apply decimal_injective.
Qed.

End AddressFacts.
